(** * PropForce: radial actuator-disk propeller model and loading optimizer

    A shallow embedding of [src/propforce/model.py] and
    [src/propforce/optimize.py].

    Numbers.  The Python code computes with IEEE doubles; here every float is
    an exact rational ([Q]), so rounding, overflow, [inf] and [nan] are not
    represented.  Numeric equalities between differently associated
    expressions are stated up to [==] ([Qeq]); equalities that hold because
    the code performs the very same operations are stated with [=].
    Division is [Qdiv], which is total; numpy's division by zero yields
    [inf]/[nan], so statements whose value depends on a quotient carry the
    hypotheses of the data model that keep every divisor positive.

    Arrays.  A one-dimensional [np.ndarray] of floats is a [list Q].
    Elementwise binary operations follow numpy's broadcasting rule for
    one-dimensional operands and fail (as numpy raises [ValueError]) when the
    shapes are incompatible; this is the [option] layer of the model. *)

From Stdlib Require Import String.
From Stdlib Require Import QArith Qabs Lqa Lia Bool Arith ZArith List.
Import ListNotations.

Open Scope Q_scope.

(** ** A small error monad for the numpy layer *)

Definition obind {A B : Type} (o : option A) (k : A -> option B) : option B :=
  match o with
  | Some a => k a
  | None => None
  end.

Notation "x <- e ;; k" := (obind e (fun x => k))
  (at level 61, e at next level, right associativity).

(** ** The numpy operations used by the model *)

Module Np.

Definition array := list Q.

(** [np.pi]: the double nearest to pi, as Python prints it. *)
Definition pi : Q := 3.141592653589793.

Fixpoint zip_with (f : Q -> Q -> Q) (a b : array) : array :=
  match a, b with
  | x :: a', y :: b' => f x y :: zip_with f a' b'
  | _, _ => []
  end.

(** [a op b] on two one-dimensional arrays: equal shapes combine
    elementwise, a shape-(1,) operand is stretched, anything else raises. *)
Definition binop (f : Q -> Q -> Q) (a b : array) : option array :=
  if Nat.eqb (length a) (length b) then Some (zip_with f a b)
  else match a, b with
       | [x], _ => Some (map (f x) b)
       | _, [y] => Some (map (fun x => f x y) a)
       | _, _ => None
       end.

(** [a op= b]: the result must have the shape of [a], so only [b] may be
    stretched. *)
Definition iop (f : Q -> Q -> Q) (a b : array) : option array :=
  if Nat.eqb (length a) (length b) then Some (zip_with f a b)
  else match b with
       | [y] => Some (map (fun x => f x y) a)
       | _ => None
       end.

Definition mul := binop Qmult.
Definition div := binop Qdiv.
Definition iadd := iop Qplus.
Definition imul := iop Qmult.

(** [x ** i] for a Python int [i >= 0]; [0 ** 0] is [1] on both sides. *)
Definition power (x : Q) (i : nat) : Q := x ^ (Z.of_nat i).

(** [np.maximum(x, y)] and [np.minimum(x, y)] on scalars. *)
Definition maximum (x y : Q) : Q := if Qle_bool x y then y else x.
Definition minimum (x y : Q) : Q := if Qle_bool x y then x else y.

(** [np.clip(x, lo, hi)] is [minimum(maximum(x, lo), hi)]. *)
Definition clip (x lo hi : Q) : Q := minimum (maximum x lo) hi.

(** [arr.sum()]. *)
Definition sum (a : array) : Q := fold_left Qplus a 0.

(** [y[-1] = v] on a non-empty array. *)
Fixpoint set_last (y : array) (v : Q) : array :=
  match y with
  | [] => []
  | [_] => [v]
  | x :: y' => x :: set_last y' v
  end.

(** [np.linspace(start, stop, num)] with [endpoint=True].  A negative [num]
    raises in numpy; station counts are naturals here. *)
Definition linspace (start stop : Q) (num : nat) : array :=
  let div := (Z.of_nat num - 1)%Z in
  let delta := stop - start in
  let y := map (fun i => inject_Z (Z.of_nat i)) (seq 0 num) in
  let y :=
    if (0 <? div)%Z then
      let step := delta / inject_Z div in
      if Qeq_bool step 0
      then map (fun v => v / inject_Z div * delta) y
      else map (fun v => v * step) y
    else map (fun v => v * delta) y in
  let y := map (fun v => v + start) y in
  if (1 <? num)%nat then set_last y stop else y.

(** The interior of [np.gradient(f)] with unit spacing:
    [(f[2:] - f[:-2]) / 2.0]. *)
Fixpoint gradient_interior (f : array) : array :=
  match f with
  | a :: ((_ :: c :: _) as f') => (c - a) / 2 :: gradient_interior f'
  | _ => []
  end.

(** [np.gradient(f)] on a one-dimensional array, default spacing and
    [edge_order=1]; fewer than two elements raise [ValueError]. *)
Definition gradient (f : array) : option array :=
  match f with
  | f0 :: f1 :: _ =>
      let n := length f in
      Some ([(f1 - f0) / 1] ++ gradient_interior f
            ++ [(nth (n - 1) f 0 - nth (n - 2) f 0) / 1])
  | _ => None
  end.

(** [np.trapz(y, dx=d)]: [(d * (y[1:] + y[:-1]) / 2.0).sum()]. *)
Definition trapz (y : array) (d : Q) : Q :=
  sum (map (fun s => d * s / 2) (zip_with Qplus (tl y) (removelast y))).

End Np.

(** ** Geometry and operating conditions *)

Record PropellerGeometry := {
  diameter : Q;
  num_blades : Z;
  hub_radius_ratio : Q
}.

Definition radius (g : PropellerGeometry) : Q := diameter g / 2.
Definition hub_radius (g : PropellerGeometry) : Q := radius g * hub_radius_ratio g.

Record FlowConditions := {
  velocity_inf : Q;
  rpm : Q;
  rho : Q
}.

(** Angular velocity in rad/s. *)
Definition omega (flow : FlowConditions) : Q := rpm flow * 2 * Np.pi / 60.
(** ** The actuator disk *)

Record RadialActuatorDisk := {
  geom : PropellerGeometry;
  n_stations : nat;
  tip_loss : Q;
  r_stations : Np.array;
  r_norm : Np.array
}.

(** [RadialActuatorDisk.__init__]. *)
Definition init (geometry : PropellerGeometry) (num_radial_stations : nat)
    (tip_loss_factor : Q) : RadialActuatorDisk :=
  let r_hub := hub_radius geometry in
  let r_tip := radius geometry in
  let stations := Np.linspace r_hub r_tip num_radial_stations in
  {| geom := geometry;
     n_stations := num_radial_stations;
     tip_loss := tip_loss_factor;
     r_stations := stations;
     r_norm := map (fun r => r / radius geometry) stations |}.

(** The loop [for i, c in enumerate(coeffs): dT_dr += c * self.r_norm**i],
    entered at index [i] with accumulator [dT_dr]. *)
Fixpoint loading_loop (rn : Np.array) (i : nat) (coeffs : list Q)
    (dT_dr : Np.array) : option Np.array :=
  match coeffs with
  | [] => Some dT_dr
  | c :: coeffs' =>
      dT_dr' <- Np.iadd dT_dr (map (fun x => c * Np.power x i) rn) ;;
      loading_loop rn (S i) coeffs' dT_dr'
  end.

(** The tip-loss taper of [compute_loading_distribution], before and after
    clipping. *)
Definition taper_raw (tl x : Q) : Q := 1 - (1 - tl) * (x - 0.7) / 0.3.
Definition taper (self : RadialActuatorDisk) : Np.array :=
  map (fun t => Np.clip t (tip_loss self) 1)
      (map (taper_raw (tip_loss self)) (r_norm self)).

Definition compute_loading_distribution (self : RadialActuatorDisk)
    (coeffs : list Q) : option Np.array :=
  dT_dr <- loading_loop (r_norm self) 0 coeffs
             (map (fun _ => 0) (r_stations self)) ;;
  dT_dr <- Np.imul dT_dr (taper self) ;;
  Some (map (fun x => Np.maximum x 0) dT_dr).

Definition compute_induced_velocity (self : RadialActuatorDisk)
    (dT_dr : Np.array) (flow : FlowConditions) : option Np.array :=
  let V_eff := velocity_inf flow + 0.001 in
  let denominator := map (fun r => 4 * Np.pi * rho flow * V_eff * r)
                         (r_stations self) in
  w <- Np.div dT_dr (map (fun d => d + 0.000001) denominator) ;;
  let V_eff_corrected := map (fun w => velocity_inf flow + 0.5 * w) w in
  den <- Np.mul (map (fun v => 4 * Np.pi * rho flow * v) V_eff_corrected)
                (r_stations self) ;;
  w <- Np.div dT_dr (map (fun d => d + 0.000001) den) ;;
  Some w.

(** The five values [compute_performance] returns. *)
Record Performance := {
  thrust : Q;
  torque : Q;
  power : Q;
  loading : Np.array;
  induced_velocity : Np.array
}.

Definition swirl_factor : Q := 0.05.

Definition compute_performance (self : RadialActuatorDisk) (coeffs : list Q)
    (flow : FlowConditions) : option Performance :=
  dT_dr <- compute_loading_distribution self coeffs ;;
  w <- compute_induced_velocity self dT_dr flow ;;
  dr <- Np.gradient (r_stations self) ;;
  let dr0 := nth 0 dr 0 in
  let thrust := Np.trapz dT_dr dr0 in
  dQ_dr <- Np.mul (map (fun x => swirl_factor * x) dT_dr) (r_stations self) ;;
  let torque := Np.trapz dQ_dr dr0 in
  let local_axial_velocity := map (fun w => velocity_inf flow + w) w in
  dP_axial_dr <- Np.mul dT_dr local_axial_velocity ;;
  let power_axial := Np.trapz dP_axial_dr dr0 in
  let power_rotational := torque * omega flow in
  let power := power_axial + power_rotational in
  Some {| thrust := thrust; torque := torque; power := power;
          loading := dT_dr; induced_velocity := w |}.

(** ** The inputs of the repository's tests *)

(** [PropellerGeometry(diameter=0.25, num_blades=2)], the 20-station model
    built on it with the default tip loss, the preset
    [default_loading_coeffs("elliptic")] and a flow at the default density. *)
Definition geom_025 : PropellerGeometry :=
  {| diameter := 0.25; num_blades := 2; hub_radius_ratio := 0.2 |}.
Definition model_20 : RadialActuatorDisk := init geom_025 20 0.95.
Definition elliptic : list Q := [0.5; 1; 3; -(1.5); 0].
Definition flow_at (v r : Q) : FlowConditions :=
  {| velocity_inf := v; rpm := r; rho := 1.225 |}.

(** ** Properties the statements are phrased with *)

(** The shape the data model promises. *)
Definition valid_geometry (g : PropellerGeometry) : Prop :=
  0 < diameter g /\ (1 <= num_blades g)%Z /\
  0 < hub_radius_ratio g /\ hub_radius_ratio g < 1.

Definition valid_flow (flow : FlowConditions) : Prop :=
  0 <= velocity_inf flow /\ 0 < rpm flow /\ 0 < rho flow.

(** The straight line through [(x0, y0)] and [(x1, y1)]. *)
Definition linear_between (x0 y0 x1 y1 x : Q) : Q :=
  y0 + (y1 - y0) * (x - x0) / (x1 - x0).

(** The momentum-theory quotient at one station, for loading [l], station
    radius [r] and effective axial velocity [v_eff]. *)
Definition momentum_velocity (flow : FlowConditions) (v_eff l r : Q) : Q :=
  l / (4 * Np.pi * rho flow * v_eff * r + 0.000001).

(** The first estimate and the corrector step of the fixed-point scheme. *)
Definition first_estimate (flow : FlowConditions) (l r : Q) : Q :=
  momentum_velocity flow (velocity_inf flow + 0.001) l r.
Definition corrector (flow : FlowConditions) (l r w_prev : Q) : Q :=
  momentum_velocity flow (velocity_inf flow + 0.5 * w_prev) l r.

(** [k] corrector steps after the first estimate. *)
Definition picard (flow : FlowConditions) (k : nat) (l r : Q) : Q :=
  Nat.iter k (corrector flow l r) (first_estimate flow l r).

(** The record [compute_performance] assembles from a loading array [l]
    and the first entry [dr0] of the grid's gradient. *)
Definition performance_of (self : RadialActuatorDisk) (l : Np.array)
    (flow : FlowConditions) (dr0 : Q) : Performance :=
  let w := Np.zip_with (picard flow 1) l (r_stations self) in
  let tq := Np.trapz (Np.zip_with Qmult (map (fun x => swirl_factor * x) l)
                        (r_stations self)) dr0 in
  {| thrust := Np.trapz l dr0;
     torque := tq;
     power := Np.trapz (Np.zip_with Qmult l
                          (map (fun w => velocity_inf flow + w) w)) dr0
              + tq * omega flow;
     loading := l;
     induced_velocity := w |}.

(** The trapezoidal rule for samples [y] at abscissae [x]:
    the sum of [(x[i+1] - x[i]) * (y[i] + y[i+1]) / 2]. *)
Fixpoint trapezoid_integral (x y : Np.array) : Q :=
  match x, y with
  | x0 :: ((x1 :: _) as x'), y0 :: ((y1 :: _) as y') =>
      (x1 - x0) * (y0 + y1) / 2 + trapezoid_integral x' y'
  | _, _ => 0
  end.

(** Consecutive entries of [x] are [d] apart. *)
Fixpoint uniform (d : Q) (x : Np.array) : Prop :=
  match x with
  | x0 :: ((x1 :: _) as x') => x1 - x0 == d /\ uniform d x'
  | _ => True
  end.

(** The grid of [np.linspace] is, up to [==], the arithmetic progression
    from [start] with step [(stop - start) / (num - 1)]. *)
Definition progression (start step : Q) (k num : nat) : Np.array :=
  map (fun i => inject_Z (Z.of_nat i) * step + start) (seq k num).

Definition all_zero : Np.array -> Prop := Forall (fun x => x == 0).

(** ** The optimizer ([optimize.py]) *)

(** Python exceptions that can leave [optimize_loading].  A numpy shape
    error inside the model is a [ValueError] whose text is not modelled. *)
Inductive exn : Type :=
| ValueError (msg : string)
| IndexError.

Inductive outcome (A : Type) : Type :=
| Returned (a : A)
| Raised (e : exn).
Arguments Returned {A} a.
Arguments Raised {A} e.

(** The dict [history], with its four fixed keys. *)
Module History.
Record t := {
  iter : list nat;
  objective : list Q;
  thrust : list Q;
  power : list Q
}.
Definition empty : t :=
  {| iter := []; objective := []; thrust := []; power := [] |}.
End History.

(** What the closures of [optimize_loading] mutate: [history] and
    [iter_count[0]].  [calls] is not in the source: it logs, in order, the
    coefficient vectors [model.compute_performance] was called on. *)
Record OptState := {
  history : History.t;
  iter_count : nat;
  calls : list (list Q)
}.

Definition initial_state : OptState :=
  {| history := History.empty; iter_count := 0; calls := [] |}.

(** State and exceptions. *)
Definition M (A : Type) : Type := OptState -> outcome A * OptState.

Definition ret {A : Type} (a : A) : M A := fun s => (Returned a, s).
Definition raise {A : Type} (e : exn) : M A := fun s => (Raised e, s).
Definition bind {A B : Type} (m : M A) (k : A -> M B) : M B :=
  fun s => match m s with
           | (Returned a, s') => k a s'
           | (Raised e, s') => (Raised e, s')
           end.
Definition modify (f : OptState -> OptState) : M unit :=
  fun s => (Returned tt, f s).
Definition get : M OptState := fun s => (Returned s, s).

Notation "x <-- m ; k" := (bind m (fun x => k))
  (at level 61, m at next level, right associativity).

(** scipy's [OptimizeResult], the fields [optimize_loading] reads. *)
Module OptimizeResult.
Record t := {
  x : list Q;
  fun_ : Q;
  nit : nat;
  success : bool;
  message : string
}.
End OptimizeResult.

Module OptimizationResult.
Record t := {
  success : bool;
  optimal_coeffs : list Q;
  optimal_value : Q;
  thrust : Q;
  power : Q;
  iterations : nat;
  message : string;
  history : History.t
}.
End OptimizationResult.

(** [scipy.optimize.Bounds(lb, ub)]. *)
Record Bounds := { lb : list Q; ub : list Q }.

(** The entries of the list [constraints], all of type ['ineq']. *)
Inductive constraint : Type :=
| thrust_constraint (thrust_target : Q)
| power_constraint (power_limit : Q).

(** [scipy.optimize.minimize] is not part of the repository.  A run of it
    is a finite tree of requests: evaluate the objective at a point,
    evaluate the [j]-th constraint at a point, stop with a result, or raise.
    The tree is well founded, so every run ends. *)
Inductive Solver : Type :=
| EvalFun (x : list Q) (k : Q -> Solver)
| EvalConstraint (j : nat) (x : list Q) (k : Q -> Solver)
| Finish (res : OptimizeResult.t)
| Abort (e : exn).

(** [minimize(fun, x0, method=, bounds=, constraints=, options={'maxiter'})]:
    the starting point, the method name, the bounds, the number of
    constraints and the iteration cap determine the requests. *)
Definition minimizer : Type :=
  list Q -> string -> Bounds -> nat -> nat -> Solver.

Section Optimizer.

Variable model : RadialActuatorDisk.
Variable flow : FlowConditions.
Variable objective : string.

(** [model.compute_performance(coeffs, flow)] called from a closure. *)
Definition call_model (coeffs : list Q) : M Performance :=
  _ <-- modify (fun s => {| history := history s;
                               iter_count := iter_count s;
                               calls := calls s ++ [coeffs] |});
  match compute_performance model coeffs flow with
  | Some p => ret p
  | None => raise (ValueError "numpy")
  end.

Definition objective_function (coeffs : list Q) : M Q :=
  p <-- call_model coeffs;
  _ <-- modify (fun s =>
    {| history :=
         {| History.iter := History.iter (history s) ++ [iter_count s];
            History.objective := History.objective (history s);
            History.thrust := History.thrust (history s) ++ [thrust p];
            History.power := History.power (history s) ++ [power p] |};
       iter_count := (iter_count s + 1)%nat;
       calls := calls s |});
  obj <-- (if String.eqb objective "min_power" then ret (power p)
             else if String.eqb objective "max_thrust" then ret (- thrust p)
             else raise (ValueError ("Unknown objective: " ++ objective)));
  _ <-- modify (fun s =>
    {| history :=
         {| History.iter := History.iter (history s);
            History.objective := History.objective (history s) ++ [obj];
            History.thrust := History.thrust (history s);
            History.power := History.power (history s) |};
       iter_count := iter_count s;
       calls := calls s |});
  ret obj.

Definition constraint_function (c : constraint) (coeffs : list Q) : M Q :=
  p <-- call_model coeffs;
  match c with
  | thrust_constraint thrust_target => ret (thrust p - thrust_target)
  | power_constraint power_limit => ret (power_limit - power p)
  end.

(** The list [constraints] the function builds. *)
Definition build_constraints (thrust_target power_limit : option Q)
  : list constraint :=
  (match thrust_target with
   | Some t => if String.eqb objective "min_power"
               then [thrust_constraint t] else []
   | None => []
   end)
  ++
  (match power_limit with
   | Some p => if String.eqb objective "max_thrust"
               then [power_constraint p] else []
   | None => []
   end).

(** The solver's requests served by the closures. *)
Fixpoint run (constraints : list constraint) (prog : Solver)
  : M OptimizeResult.t :=
  match prog with
  | EvalFun x k =>
      v <-- objective_function x; run constraints (k v)
  | EvalConstraint j x k =>
      match nth_error constraints j with
      | Some c => v <-- constraint_function c x; run constraints (k v)
      | None => raise IndexError
      end
  | Finish res => ret res
  | Abort e => raise e
  end.

Variable minimize : minimizer.
(** The vector [np.random.uniform(1.0, 3.0, n_poly)] draws. *)
Variable random_uniform : nat -> list Q.

Definition optimize_loading
    (thrust_target power_limit : option Q)
    (initial_guess : option (list Q)) (n_poly : nat) (bounds : Q * Q)
    (method : string) : outcome OptimizationResult.t * OptState :=
  let x0 := match initial_guess with
            | None => random_uniform n_poly
            | Some x => x
            end in
  let constraints := build_constraints thrust_target power_limit in
  let opt_bounds := {| lb := repeat (fst bounds) n_poly;
                       ub := repeat (snd bounds) n_poly |} in
  (res <-- run constraints
               (minimize x0 method opt_bounds (length constraints) 200%nat);
   p <-- call_model (OptimizeResult.x res);
   s <-- get;
   ret {| OptimizationResult.success := OptimizeResult.success res;
          OptimizationResult.optimal_coeffs := OptimizeResult.x res;
          OptimizationResult.optimal_value := OptimizeResult.fun_ res;
          OptimizationResult.thrust := thrust p;
          OptimizationResult.power := power p;
          OptimizationResult.iterations := OptimizeResult.nit res;
          OptimizationResult.message := OptimizeResult.message res;
          OptimizationResult.history := history s |})
    initial_state.

End Optimizer.

(** A two-station model, a one-coefficient loading and a solver that
    evaluates the objective once at the starting point and stops there. *)
Definition model_2 : RadialActuatorDisk := init geom_025 2 0.95.
Definition one_shot : minimizer :=
  fun x0 _ _ _ _ =>
    EvalFun x0 (fun v =>
      Finish {| OptimizeResult.x := x0;
                OptimizeResult.fun_ := v;
                OptimizeResult.nit := 1;
                OptimizeResult.success := true;
                OptimizeResult.message :=
                  "Optimization terminated successfully" |}).
Definition no_random : nat -> list Q := fun n_poly => repeat 2 n_poly.

(** "Fails before any model evaluation": an exception, no call of
    [compute_performance], an empty history and a counter still at 0. *)
Definition fails_before_any_evaluation
    (r : outcome OptimizationResult.t * OptState) : Prop :=
  (exists e, fst r = Raised e) /\
  calls (snd r) = [] /\
  history (snd r) = History.empty /\
  iter_count (snd r) = 0%nat.

Definition recognized (objective : string) : Prop :=
  objective = "min_power"%string \/ objective = "max_thrust"%string.

(** ** Further properties of the model *)

(** Consecutive entries of [x] grow strictly. *)
Fixpoint increasing (x : Np.array) : Prop :=
  match x with
  | x0 :: ((x1 :: _) as x') => x0 < x1 /\ increasing x'
  | _ => True
  end.

(** The loading polynomial as a power sum: [coeffs] are the coefficients of
    the powers [i], [i+1], ... of [x]. *)
Fixpoint polynomial (coeffs : list Q) (i : nat) (x : Q) : Q :=
  match coeffs with
  | [] => 0
  | c :: coeffs' => c * Np.power x i + polynomial coeffs' (S i) x
  end.

(** ** Metrics ([metrics.py]) *)

(** Rotational speed in rev/s, the property [FlowConditions.n]. *)
Definition n (flow : FlowConditions) : Q := rpm flow / 60.

(** Python's [x > y] and [x < y] on floats. *)
Definition gt (x y : Q) : bool := negb (Qle_bool x y).
Definition lt (x y : Q) : bool := negb (Qle_bool y x).

(** The dict [compute_coefficients] returns, with its four fixed keys. *)
Module Coefficients.
Record t := { J : Q; CT : Q; CP : Q; eta : Q }.
End Coefficients.

Definition compute_coefficients (thrust power : Q)
    (geometry : PropellerGeometry) (flow : FlowConditions) : Coefficients.t :=
  let n := n flow in
  let D := diameter geometry in
  let rho := rho flow in
  let V_inf := velocity_inf flow in
  let J := V_inf / (n * D + 0.000000001) in
  let CT := thrust / (rho * Np.power n 2 * Np.power D 4 + 0.000000000001) in
  let CP := power / (rho * Np.power n 3 * Np.power D 5 + 0.000000000001) in
  let eta := if gt CP 0.000000001
             then (J * CT) / (CP + 0.000000000001) else 0 in
  {| Coefficients.J := J; Coefficients.CT := CT;
     Coefficients.CP := CP; Coefficients.eta := eta |}.

Definition compute_efficiency (thrust power velocity : Q) : Q :=
  if lt power 0.000001 then 0
  else (thrust * velocity) / power.

(** [a[i] = v]; an index past the end raises [IndexError]. *)
Fixpoint setitem (a : Np.array) (i : nat) (v : Q) : option Np.array :=
  match a, i with
  | [], _ => None
  | _ :: a', O => Some (v :: a')
  | x :: a', S i' => a'' <- setitem a' i' v ;; Some (x :: a'')
  end.

(** The dict [performance_sweep] returns, with its seven fixed keys. *)
Module Sweep.
Record t := {
  rpm : Np.array;
  thrust : Np.array;
  power : Np.array;
  J : Np.array;
  CT : Np.array;
  CP : Np.array;
  eta : Np.array
}.
End Sweep.

(** The loop [for i, rpm in enumerate(rpm_range)] of [performance_sweep],
    entered at index [i] with the arrays filled so far. *)
Fixpoint sweep_loop (model : RadialActuatorDisk) (coeffs : list Q)
    (velocity rho : Q) (i : nat) (rpm_range : list Q) (results : Sweep.t)
  : option Sweep.t :=
  match rpm_range with
  | [] => Some results
  | rpm :: rest =>
      let flow := {| velocity_inf := velocity; rpm := rpm; rho := rho |} in
      p <- compute_performance model coeffs flow ;;
      let coeffs_dict :=
        compute_coefficients (thrust p) (power p) (geom model) flow in
      th <- setitem (Sweep.thrust results) i (thrust p) ;;
      pw <- setitem (Sweep.power results) i (power p) ;;
      cj <- setitem (Sweep.J results) i (Coefficients.J coeffs_dict) ;;
      ct <- setitem (Sweep.CT results) i (Coefficients.CT coeffs_dict) ;;
      cp <- setitem (Sweep.CP results) i (Coefficients.CP coeffs_dict) ;;
      et <- setitem (Sweep.eta results) i (Coefficients.eta coeffs_dict) ;;
      sweep_loop model coeffs velocity rho (S i) rest
        {| Sweep.rpm := Sweep.rpm results; Sweep.thrust := th;
           Sweep.power := pw; Sweep.J := cj; Sweep.CT := ct;
           Sweep.CP := cp; Sweep.eta := et |}
  end.

Definition performance_sweep (model : RadialActuatorDisk) (coeffs : list Q)
    (rpm_range : Np.array) (velocity rho : Q) : option Sweep.t :=
  let n_points := length rpm_range in
  sweep_loop model coeffs velocity rho 0 rpm_range
    {| Sweep.rpm := rpm_range;
       Sweep.thrust := repeat 0 n_points;
       Sweep.power := repeat 0 n_points;
       Sweep.J := repeat 0 n_points;
       Sweep.CT := repeat 0 n_points;
       Sweep.CP := repeat 0 n_points;
       Sweep.eta := repeat 0 n_points |}.

(** One point of the sweep, computed directly. *)
Definition sweep_point (model : RadialActuatorDisk) (coeffs : list Q)
    (velocity rho rpm : Q) : option (Performance * Coefficients.t) :=
  let flow := {| velocity_inf := velocity; rpm := rpm; rho := rho |} in
  option_map
    (fun p => (p, compute_coefficients (thrust p) (power p) (geom model) flow))
    (compute_performance model coeffs flow).

(** The coefficients of the sweep at rpm [r], from the performance
    [perf r] found there. *)
Definition point_coefficients (model : RadialActuatorDisk)
    (velocity rh : Q) (perf : Q -> Performance) (r : Q) : Coefficients.t :=
  compute_coefficients (thrust (perf r)) (power (perf r)) (geom model)
    {| velocity_inf := velocity; rpm := r; rho := rh |}.

(** The column of a sweep computed point by point: the value [f] picks at
    each rpm of the range. *)
Definition sweep_column (model : RadialActuatorDisk) (coeffs : list Q)
    (rpm_range : Np.array) (velocity rho : Q)
    (f : Performance * Coefficients.t -> Q) : list (option Q) :=
  map (fun rpm => option_map f (sweep_point model coeffs velocity rho rpm))
      rpm_range.

(** ** Utilities ([utils.py]) *)

(** The dict [profiles] of [default_loading_coeffs], in source order. *)
Definition profiles : list (string * list Q) :=
  [("uniform"%string, [2; 0; 0; 0; 0]);
   ("linear"%string, [1; 2; 0; 0; 0]);
   ("elliptic"%string, [0.5; 1; 3; -(1.5); 0]);
   ("quadratic"%string, [1; 0.5; 2; 0; 0])].

(** [d[key]] on a dict kept as an association list. *)
Fixpoint lookup (key : string) (d : list (string * list Q))
  : option (list Q) :=
  match d with
  | [] => None
  | (k, v) :: d' => if String.eqb key k then Some v else lookup key d'
  end.

Definition default_loading_coeffs (profile : string) : outcome (list Q) :=
  match lookup profile profiles with
  | None =>
      Raised (ValueError
        ("Unknown profile: " ++ profile
         ++ ". Choose from ['uniform', 'linear', 'elliptic', 'quadratic']"))
  | Some c => Returned c
  end.

(** [validate_inputs].  The messages are the source's without the
    formatted number. *)
Definition validate_inputs (diameter rpm velocity : Q) : outcome unit :=
  if negb (Qle_bool 0.05 diameter && Qle_bool diameter 2)
  then Raised (ValueError "Diameter outside range [0.05, 2.0]")
  else if negb (Qle_bool 100 rpm && Qle_bool rpm 20000)
  then Raised (ValueError "RPM outside range [100, 20000]")
  else if negb (Qle_bool 0 velocity && Qle_bool velocity 100)
  then Raised (ValueError "Velocity outside range [0, 100]")
  else Returned tt.

(** [np.mean] of a one-dimensional array (of an empty one numpy gives
    [nan]; the quotient by 0 is 0 here). *)
Definition mean (a : Np.array) : Q :=
  Np.sum a / inject_Z (Z.of_nat (length a)).

(** [compute_error_metrics]; [np.sqrt] has no rational counterpart and is
    taken as the function [sqrt]. *)
Definition compute_error_metrics (sqrt : Q -> Q) (y_true y_pred : Np.array)
  : option (Q * Q * Q) :=
  errors <- Np.binop Qminus y_true y_pred ;;
  let rmse := sqrt (mean (map (fun e => Np.power e 2) errors)) in
  let mae := mean (map Qabs errors) in
  let ss_res := Np.sum (map (fun e => Np.power e 2) errors) in
  let ss_tot :=
    Np.sum (map (fun d => Np.power d 2)
              (map (fun y => y - mean y_true) y_true)) in
  let r2 := 1 - (ss_res / (ss_tot + 0.000000000001)) in
  Some (rmse, mae, r2).

(** ** Further properties of the optimizer *)

(** The four lists of the history have one entry per objective evaluation,
    and the iteration indices count from 0. *)
Definition history_in_step (s : OptState) : Prop :=
  History.iter (history s) = seq 0 (iter_count s) /\
  length (History.objective (history s)) = iter_count s /\
  length (History.thrust (history s)) = iter_count s /\
  length (History.power (history s)) = iter_count s.

(** What the objective list must hold, given the thrust and power lists:
    the powers for ["min_power"], the negated thrusts for ["max_thrust"],
    nothing for any other kind. *)
Definition objective_log (objective : string) (h : History.t) : list Q :=
  if String.eqb objective "min_power" then History.power h
  else if String.eqb objective "max_thrust"
       then map Qopp (History.thrust h)
       else [].

(** A solver run that neither raises nor asks for a constraint beyond the
    [ncons] registered ones, whatever values it is answered. *)
Inductive answers (ncons : nat) : Solver -> Prop :=
| answers_fun (x : list Q) (k : Q -> Solver) :
    (forall v, answers ncons (k v)) -> answers ncons (EvalFun x k)
| answers_constraint (j : nat) (x : list Q) (k : Q -> Solver) :
    (j < ncons)%nat -> (forall v, answers ncons (k v)) ->
    answers ncons (EvalConstraint j x k)
| answers_finish (res : OptimizeResult.t) : answers ncons (Finish res).

(** The state after [compute_performance] has been called on [coeffs], and
    the state after an objective evaluation has also appended its history
    entries ([obj] holds the objective entry, if one is appended). *)
Definition logged (s : OptState) (coeffs : list Q) : OptState :=
  {| history := history s; iter_count := iter_count s;
     calls := calls s ++ [coeffs] |}.

Definition recorded (s : OptState) (coeffs : list Q) (p : Performance)
    (obj : list Q) : OptState :=
  {| history :=
       {| History.iter := History.iter (history s) ++ [iter_count s];
          History.objective := History.objective (history s) ++ obj;
          History.thrust := History.thrust (history s) ++ [thrust p];
          History.power := History.power (history s) ++ [power p] |};
     iter_count := (iter_count s + 1)%nat;
     calls := calls s ++ [coeffs] |}.

(** * Proofs *)

(** ** Shapes and elementwise facts of the numpy layer *)

Section ArrayFacts.

Variable f : Q -> Q -> Q.

Lemma zip_with_length (a b : Np.array) :
  length a = length b -> length (Np.zip_with f a b) = length a.
Proof.
  revert b; induction a as [|x a IH]; intros [|y b] H; simpl in *;
    try discriminate; auto.
Qed.

Lemma binop_same (a b : Np.array) :
  length a = length b -> Np.binop f a b = Some (Np.zip_with f a b).
Proof.
  intros H. unfold Np.binop. rewrite H, Nat.eqb_refl. reflexivity.
Qed.

Lemma iop_same (a b : Np.array) :
  length a = length b -> Np.iop f a b = Some (Np.zip_with f a b).
Proof.
  intros H. unfold Np.iop. rewrite H, Nat.eqb_refl. reflexivity.
Qed.

Variables P R S : Q -> Prop.
Hypothesis f_ok : forall x y, P x -> R y -> S (f x y).

Lemma zip_with_Forall (a b : Np.array) :
  Forall P a -> Forall R b -> Forall S (Np.zip_with f a b).
Proof.
  intros Ha; revert b; induction Ha as [|x a Hx Ha IH]; intros b Hb.
  - constructor.
  - destruct Hb as [|y b Hy Hb]; simpl; constructor; auto.
Qed.


End ArrayFacts.

Lemma set_last_length (y : Np.array) (v : Q) :
  length (Np.set_last y v) = length y.
Proof.
  induction y as [|x [|x' y] IH]; simpl in *; auto.
Qed.

Lemma set_last_Forall (P : Q -> Prop) (y : Np.array) (v : Q) :
  Forall P y -> P v -> Forall P (Np.set_last y v).
Proof.
  intros Hy Hv; induction Hy as [|x y Hx Hy IH]; simpl; auto.
  destruct y; auto.
Qed.

Lemma linspace_length (start stop : Q) (num : nat) :
  length (Np.linspace start stop num) = num.
Proof.
  unfold Np.linspace.
  assert (E : forall g h : Q -> Q,
             length (map g (map h (map (fun i => inject_Z (Z.of_nat i))
                                       (seq 0 num)))) = num)
    by (intros; now rewrite !length_map, length_seq).
  destruct (1 <? num)%nat; [rewrite set_last_length|];
    destruct (0 <? Z.of_nat num - 1)%Z; try destruct (Qeq_bool _ 0);
    rewrite !length_map, length_seq; reflexivity.
Qed.

Lemma init_r_stations_length g num tl :
  length (r_stations (init g num tl)) = num.
Proof. apply linspace_length. Qed.

Lemma init_r_norm_length g num tl :
  length (r_norm (init g num tl)) = num.
Proof. simpl. rewrite length_map. apply linspace_length. Qed.

(** ** Case analysis on the boolean comparisons of the numpy layer *)

Lemma Qle_bool_cases (x y : Q) :
  (Qle_bool x y = true /\ x <= y) \/ (Qle_bool x y = false /\ y < x).
Proof.
  destruct (Qle_bool x y) eqn:E.
  - left. split; [reflexivity|]. now apply Qle_bool_iff.
  - right. split; [reflexivity|]. apply Qnot_le_lt. intros H.
    apply Qle_bool_iff in H. congruence.
Qed.

Ltac qcases :=
  repeat match goal with
         | |- context [Qle_bool ?x ?y] =>
             let H := fresh "Hle" in
             let E := fresh "Ele" in
             destruct (Qle_bool_cases x y) as [[E H]|[E H]];
             rewrite E in *; clear E
         | _ : context [Qle_bool ?x ?y] |- _ =>
             let H := fresh "Hle" in
             let E := fresh "Ele" in
             destruct (Qle_bool_cases x y) as [[E H]|[E H]];
             rewrite E in *; clear E
         end.

Lemma maximum_ge_r (x y : Q) : y <= Np.maximum x y.
Proof. unfold Np.maximum. qcases; lra. Qed.

(** ** The loading distribution *)

Lemma loading_loop_total (rn : Np.array) (coeffs : list Q) :
  forall (i : nat) (acc : Np.array),
    length acc = length rn ->
    exists l, loading_loop rn i coeffs acc = Some l /\ length l = length rn.
Proof.
  induction coeffs as [|c coeffs IH]; intros i acc Hacc; simpl.
  - eauto.
  - unfold Np.iadd. rewrite iop_same by now rewrite length_map.
    simpl. apply IH. rewrite zip_with_length; now rewrite ?length_map.
Qed.

Lemma taper_length (self : RadialActuatorDisk) :
  length (taper self) = length (r_norm self).
Proof. unfold taper. now rewrite !length_map. Qed.

Lemma loading_total (self : RadialActuatorDisk) (coeffs : list Q) :
  length (r_stations self) = length (r_norm self) ->
  exists l, compute_loading_distribution self coeffs = Some l /\
            length l = length (r_stations self).
Proof.
  intros Hlen. unfold compute_loading_distribution.
  destruct (loading_loop_total (r_norm self) coeffs 0
              (map (fun _ => 0) (r_stations self))) as (l & -> & Hl).
  { now rewrite length_map. }
  simpl. unfold Np.imul. rewrite iop_same by now rewrite taper_length.
  simpl. eexists; split; [reflexivity|].
  rewrite length_map, zip_with_length; rewrite ?taper_length; congruence.
Qed.

Lemma loading_nonneg_any (self : RadialActuatorDisk) (coeffs : list Q)
    (l : Np.array) :
  compute_loading_distribution self coeffs = Some l ->
  Forall (fun x => 0 <= x) l.
Proof.
  unfold compute_loading_distribution.
  destruct (loading_loop _ _ _ _) as [l1|]; [simpl|discriminate].
  destruct (Np.imul _ _) as [l2|]; [simpl|discriminate].
  intros [= <-]. apply Forall_map, Forall_forall. intros x _.
  apply maximum_ge_r.
Qed.

(** C5. For every coefficient vector, of any length, and every valid
    geometry, [compute_loading_distribution] returns an array with one entry
    per station, and every entry is at least 0. *)
Theorem loading_elementwise_nonneg (g : PropellerGeometry) (num : nat)
    (tl : Q) (coeffs : list Q) :
  valid_geometry g ->
  exists dT_dr,
    compute_loading_distribution (init g num tl) coeffs = Some dT_dr /\
    length dT_dr = num /\
    Forall (fun x => 0 <= x) dT_dr.
Proof.
  intros _.
  destruct (loading_total (init g num tl) coeffs) as (l & Hl & Hlen).
  { now rewrite init_r_stations_length, init_r_norm_length. }
  exists l. split; [exact Hl|]. split.
  - now rewrite Hlen, init_r_stations_length.
  - eapply loading_nonneg_any; eassumption.
Qed.

Lemma taper_raw_linear (tl x : Q) :
  taper_raw tl x == 1 - (1 - tl) * (x - 0.7) * (10 # 3).
Proof. unfold taper_raw. field. Qed.

Lemma linear_between_taper (tl x : Q) :
  linear_between 0.7 1 1 tl x == 1 - (1 - tl) * (x - 0.7) * (10 # 3).
Proof. unfold linear_between. field. Qed.

Lemma taper_Forall2 (tl : Q) (P : Q -> Q -> Prop) (rn : Np.array) :
  (forall x, P x (Np.clip (taper_raw tl x) tl 1)) ->
  Forall2 P rn (map (fun t => Np.clip t tl 1) (map (taper_raw tl) rn)).
Proof.
  intros H. induction rn as [|x rn IH]; simpl; constructor; auto.
Qed.

(** C7. For a tip-loss factor in (0,1], the taper multiplier of each station
    is 1 where the normalized radius is at most 0.7, lies on the straight
    line from 1 at 0.7 to [tip_loss] at 1.0 in between (so it does not
    increase there), is [tip_loss] from 1.0 on, and always lies in
    [[tip_loss, 1]]. *)
Theorem taper_profile (self : RadialActuatorDisk) :
  0 < tip_loss self -> tip_loss self <= 1 ->
  Forall2 (fun x t =>
             (tip_loss self <= t /\ t <= 1) /\
             (x <= 0.7 -> t == 1) /\
             (0.7 <= x -> x <= 1 ->
              t == linear_between 0.7 1 1 (tip_loss self) x) /\
             (1 <= x -> t == tip_loss self))
          (r_norm self) (taper self) /\
  (forall x y, 0.7 <= x -> x <= y -> y <= 1 ->
     linear_between 0.7 1 1 (tip_loss self) y
     <= linear_between 0.7 1 1 (tip_loss self) x).
Proof.
  intros Hpos Hle. split.
  - apply taper_Forall2. intros x.
    pose proof (taper_raw_linear (tip_loss self) x) as Hraw.
    pose proof (linear_between_taper (tip_loss self) x) as Hlin.
    unfold Np.clip, Np.minimum, Np.maximum.
    set (raw := taper_raw (tip_loss self) x) in *.
    set (lin := linear_between 0.7 1 1 (tip_loss self) x) in *.
    clearbody raw lin.
    qcases; repeat split; intros; try lra; try nra.
  - intros x y Hx Hxy Hy.
    rewrite !linear_between_taper. nra.
Qed.

(** ** The radial grid of a valid geometry *)

Lemma inject_nat_nonneg (i : nat) : 0 <= inject_Z (Z.of_nat i).
Proof. unfold Qle; simpl. lia. Qed.

Lemma linspace_pos (start stop : Q) (num : nat) :
  0 < start -> start <= stop ->
  Forall (fun r => 0 < r) (Np.linspace start stop num).
Proof.
  intros Hstart Hstop. unfold Np.linspace.
  assert (Hidx : Forall (fun v => 0 <= v)
                   (map (fun i => inject_Z (Z.of_nat i)) (seq 0 num))).
  { apply Forall_map, Forall_forall. intros i _. apply inject_nat_nonneg. }
  assert (Hy : forall g : Q -> Q,
             (forall v, 0 <= v -> 0 <= g v) ->
             Forall (fun r => 0 < r)
               (map (fun v => v + start)
                  (map g (map (fun i => inject_Z (Z.of_nat i)) (seq 0 num))))).
  { intros g Hg. apply Forall_map, Forall_map.
    eapply Forall_impl; [|exact Hidx]. intros v Hv. simpl.
    specialize (Hg v Hv). lra. }
  assert (Hdelta : 0 <= stop - start) by lra.
  assert (Hall : Forall (fun r => 0 < r)
            (map (fun v => v + start)
               (if (0 <? Z.of_nat num - 1)%Z
                then
                  if Qeq_bool ((stop - start) / inject_Z (Z.of_nat num - 1)) 0
                  then map (fun v => v / inject_Z (Z.of_nat num - 1)
                                     * (stop - start))
                         (map (fun i => inject_Z (Z.of_nat i)) (seq 0 num))
                  else map (fun v => v * ((stop - start)
                                          / inject_Z (Z.of_nat num - 1)))
                         (map (fun i => inject_Z (Z.of_nat i)) (seq 0 num))
                else map (fun v => v * (stop - start))
                       (map (fun i => inject_Z (Z.of_nat i)) (seq 0 num))))).
  { destruct (0 <? Z.of_nat num - 1)%Z eqn:Hdiv.
    - apply Z.ltb_lt in Hdiv.
      assert (Hd : 0 < inject_Z (Z.of_nat num - 1))
        by (unfold Qlt; simpl; lia).
      destruct (Qeq_bool _ 0); apply Hy; intros v Hv.
      + apply Qmult_le_0_compat; [|exact Hdelta].
        apply Qle_shift_div_l; [exact Hd|lra].
      + apply Qmult_le_0_compat; [exact Hv|].
        apply Qle_shift_div_l; [exact Hd|lra].
    - apply Hy. intros v Hv. now apply Qmult_le_0_compat. }
  destruct (1 <? num)%nat; [apply set_last_Forall|]; auto; lra.
Qed.

Lemma valid_geometry_radii (g : PropellerGeometry) :
  valid_geometry g -> 0 < hub_radius g /\ hub_radius g <= radius g.
Proof.
  intros (Hd & _ & Hlo & Hhi). unfold hub_radius, radius.
  assert (E : diameter g / 2 == diameter g * (1 # 2)) by field.
  rewrite E. split; nra.
Qed.

Lemma init_r_stations_pos (g : PropellerGeometry) (num : nat) (tl : Q) :
  valid_geometry g -> Forall (fun r => 0 < r) (r_stations (init g num tl)).
Proof.
  intros Hg. destruct (valid_geometry_radii g Hg). now apply linspace_pos.
Qed.

(** ** Induced velocity *)

Lemma induced_velocity_fused (flow : FlowConditions) (dT_dr r : Np.array) :
  Np.zip_with Qdiv dT_dr
    (map (fun d => d + 0.000001)
       (Np.zip_with Qmult
          (map (fun v => 4 * Np.pi * rho flow * v)
             (map (fun w => velocity_inf flow + 0.5 * w)
                (Np.zip_with Qdiv dT_dr
                   (map (fun d => d + 0.000001)
                      (map (fun r => 4 * Np.pi * rho flow
                                     * (velocity_inf flow + 0.001) * r) r)))))
          r))
  = Np.zip_with (picard flow 1) dT_dr r.
Proof.
  revert r; induction dT_dr as [|l dT_dr IH]; intros [|x r]; simpl; auto.
  f_equal. apply IH.
Qed.

Lemma induced_velocity_aligned (self : RadialActuatorDisk)
    (dT_dr : Np.array) (flow : FlowConditions) :
  length dT_dr = length (r_stations self) ->
  compute_induced_velocity self dT_dr flow
  = Some (Np.zip_with (picard flow 1) dT_dr (r_stations self)).
Proof.
  intros Hlen. unfold compute_induced_velocity, Np.div, Np.mul.
  rewrite binop_same by now rewrite !length_map.
  simpl. rewrite binop_same
    by (rewrite !length_map, zip_with_length; now rewrite ?length_map).
  simpl. rewrite binop_same
    by (rewrite length_map, zip_with_length;
        rewrite !length_map, zip_with_length; now rewrite ?length_map).
  simpl. now rewrite induced_velocity_fused.
Qed.

(** C4. On a loading array aligned with the grid,
    [compute_induced_velocity] returns, station by station, the result of
    exactly one corrector step applied to the first estimate
    [w0 = l / (4 pi rho (V + 0.001) r + 0.000001)], namely
    [l / (4 pi rho (V + 0.5 w0) r + 0.000001)]. *)
Theorem induced_velocity_single_picard (self : RadialActuatorDisk)
    (dT_dr : Np.array) (flow : FlowConditions) :
  length dT_dr = length (r_stations self) ->
  compute_induced_velocity self dT_dr flow
  = Some (Np.zip_with (picard flow 1) dT_dr (r_stations self)) /\
  (forall l r,
      first_estimate flow l r
      = l / (4 * Np.pi * rho flow * (velocity_inf flow + 0.001) * r
             + 0.000001)) /\
  (forall l r,
      picard flow 1 l r
      = l / (4 * Np.pi * rho flow
               * (velocity_inf flow + 0.5 * first_estimate flow l r) * r
             + 0.000001)).
Proof.
  intros Hlen. split; [now apply induced_velocity_aligned|].
  split; reflexivity.
Qed.

(** A second corrector step would change the value: the statement above
    does distinguish one step from two. *)
Lemma picard_second_step_differs :
  ~ picard (Build_FlowConditions 10 5000 1.225) 2 1 0.1
    == picard (Build_FlowConditions 10 5000 1.225) 1 1 0.1.
Proof. vm_compute. discriminate. Qed.




(** ** Performance: what [compute_performance] computes *)

Lemma gradient_some (f : Np.array) :
  (2 <= length f)%nat ->
  exists dr, Np.gradient f = Some dr /\
             nth 0 dr 0 = (nth 1 f 0 - nth 0 f 0) / 1.
Proof.
  destruct f as [|f0 [|f1 f]]; simpl; try lia.
  intros _. eexists; split; reflexivity.
Qed.

Lemma gradient_none (f : Np.array) :
  (length f < 2)%nat -> Np.gradient f = None.
Proof. destruct f as [|f0 [|f1 f]]; simpl; auto; lia. Qed.

Lemma performance_unfold (self : RadialActuatorDisk) (coeffs : list Q) :
  length (r_stations self) = length (r_norm self) ->
  (2 <= length (r_stations self))%nat ->
  exists l dr,
    compute_loading_distribution self coeffs = Some l /\
    length l = length (r_stations self) /\
    Np.gradient (r_stations self) = Some dr /\
    nth 0 dr 0 = (nth 1 (r_stations self) 0 - nth 0 (r_stations self) 0) / 1 /\
    forall flow,
      compute_induced_velocity self l flow
      = Some (Np.zip_with (picard flow 1) l (r_stations self)) /\
      compute_performance self coeffs flow
      = Some (performance_of self l flow (nth 0 dr 0)).
Proof.
  intros Hal Hn.
  destruct (loading_total self coeffs Hal) as (l & Hl & Hlen).
  destruct (gradient_some _ Hn) as (dr & Hdr & Hdr0).
  exists l, dr. repeat (split; [assumption|]).
  intros flow.
  pose proof (induced_velocity_aligned self l flow Hlen) as Hw.
  split; [exact Hw|].
  unfold compute_performance. rewrite Hl; simpl. rewrite Hw; simpl.
  rewrite Hdr; simpl. unfold Np.mul.
  rewrite binop_same by now rewrite length_map.
  simpl. rewrite binop_same
    by (rewrite length_map, zip_with_length; auto).
  reflexivity.
Qed.

Lemma performance_none (self : RadialActuatorDisk) (coeffs : list Q)
    (flow : FlowConditions) :
  (length (r_stations self) < 2)%nat ->
  compute_performance self coeffs flow = None.
Proof.
  intros Hn. unfold compute_performance.
  destruct (compute_loading_distribution self coeffs) as [l|]; auto; simpl.
  destruct (compute_induced_velocity self l flow) as [w|]; auto; simpl.
  now rewrite gradient_none.
Qed.

(** C10. The thrust [compute_performance] returns does not depend on the
    flow conditions: for one model and one coefficient vector, two calls
    with any two flow conditions give the same thrust (or both raise, when
    the grid has fewer than two stations). *)
Theorem thrust_ignores_flow (g : PropellerGeometry) (num : nat) (tl : Q)
    (coeffs : list Q) (flow1 flow2 : FlowConditions) :
  option_map thrust (compute_performance (init g num tl) coeffs flow1)
  = option_map thrust (compute_performance (init g num tl) coeffs flow2).
Proof.
  destruct (le_lt_dec 2 num) as [Hn|Hn].
  - destruct (performance_unfold (init g num tl) coeffs)
      as (l & dr & _ & _ & _ & _ & Hp).
    + now rewrite init_r_stations_length, init_r_norm_length.
    + now rewrite init_r_stations_length.
    + destruct (Hp flow1) as [_ ->]. destruct (Hp flow2) as [_ ->].
      reflexivity.
  - rewrite !performance_none; auto; now rewrite init_r_stations_length.
Qed.

(** With at least two stations [compute_performance] returns. *)
Lemma performance_total (g : PropellerGeometry) (num : nat) (tl : Q)
    (coeffs : list Q) (flow : FlowConditions) :
  (2 <= num)%nat ->
  exists p, compute_performance (init g num tl) coeffs flow = Some p.
Proof.
  intros Hn.
  destruct (performance_unfold (init g num tl) coeffs)
    as (l & dr & _ & _ & _ & _ & Hp).
  - now rewrite init_r_stations_length, init_r_norm_length.
  - now rewrite init_r_stations_length.
  - destruct (Hp flow) as [_ ->]. eauto.
Qed.

(** ** Trapezoidal integration over the radial grid *)

Lemma fold_plus_acc (l : Np.array) (acc : Q) :
  fold_left Qplus l acc == acc + fold_left Qplus l 0.
Proof.
  revert acc; induction l as [|a l IH]; intros acc; simpl.
  - ring.
  - rewrite IH, (IH (0 + a)). ring.
Qed.

Lemma sum_cons (a : Q) (l : Np.array) : Np.sum (a :: l) == a + Np.sum l.
Proof. unfold Np.sum; simpl. rewrite fold_plus_acc. ring. Qed.

Lemma trapz_step (y0 y1 : Q) (ys : Np.array) (d : Q) :
  Np.trapz (y0 :: y1 :: ys) d
  == d * (y1 + y0) / 2 + Np.trapz (y1 :: ys) d.
Proof. unfold Np.trapz. cbn [tl removelast Np.zip_with map]. apply sum_cons. Qed.

Lemma trapz_uniform (d : Q) (x : Np.array) :
  forall y, length x = length y -> uniform d x ->
            Np.trapz y d == trapezoid_integral x y.
Proof.
  induction x as [|x0 x IH]; intros [|y0 y] Hlen Hu; try discriminate.
  - reflexivity.
  - destruct x as [|x1 x]; destruct y as [|y1 y]; try discriminate.
    + reflexivity.
    + rewrite trapz_step. destruct Hu as [Hd Hu].
      cbn [trapezoid_integral]. rewrite <- (IH (y1 :: y)); auto.
      rewrite Hd. field.
Qed.

Lemma uniform_Qeq (d d' : Q) (x : Np.array) :
  d == d' -> uniform d x -> uniform d' x.
Proof.
  intros Hd. induction x as [|x0 x IH]; simpl; auto.
  destruct x as [|x1 x]; auto.
  intros [H Hu]. split; [now rewrite <- Hd|auto].
Qed.

Lemma uniform_Forall2 (d : Q) (x x' : Np.array) :
  Forall2 Qeq x x' -> uniform d x' -> uniform d x.
Proof.
  intros H; induction H as [|a a' x x' Ha Hx IH]; simpl; auto.
  destruct Hx as [|b b' x x' Hb Hx]; auto.
  intros [Hd Hu]. split; [now rewrite Ha, Hb|auto].
Qed.

Lemma progression_uniform (start step : Q) (num : nat) :
  forall k, uniform step (progression start step k num).
Proof.
  unfold progression.
  induction num as [|num IH]; intros k; [exact I|].
  specialize (IH (S k)). destruct num as [|num]; [exact I|].
  cbn [seq map uniform] in *. split; [|exact IH].
  rewrite Nat2Z.inj_succ. unfold Z.succ. rewrite inject_Z_plus. ring.
Qed.

Lemma set_last_Forall2 (y y' : Np.array) (v : Q) :
  Forall2 Qeq y y' -> (forall d, y' <> [] -> v == last y' d) ->
  Forall2 Qeq (Np.set_last y v) y'.
Proof.
  intros H; induction H as [|a a' y y' Ha Hy IH]; intros Hv; simpl; auto.
  destruct Hy as [|b b' y y' Hb Hy].
  - constructor; auto. apply (Hv 0). discriminate.
  - constructor; auto. apply IH. intros d _. apply (Hv d). discriminate.
Qed.

Lemma Forall2_map_pointwise {A : Type} (g h : A -> Q) (l : list A) :
  (forall v, g v == h v) -> Forall2 Qeq (map g l) (map h l).
Proof. intros H; induction l; simpl; constructor; auto. Qed.

Lemma linspace_progression (start stop : Q) (num : nat) :
  (2 <= num)%nat ->
  Forall2 Qeq (Np.linspace start stop num)
    (progression start ((stop - start) / inject_Z (Z.of_nat num - 1)) 0 num).
Proof.
  intros Hn. unfold Np.linspace, progression.
  assert (Hdiv : (0 < Z.of_nat num - 1)%Z) by lia.
  assert (Hd : ~ inject_Z (Z.of_nat num - 1) == 0).
  { intros H. unfold Qeq in H; simpl in H. lia. }
  destruct (Z.ltb_spec 0 (Z.of_nat num - 1)) as [_|]; [|lia].
  destruct (Nat.ltb_spec 1 num) as [_|]; [|lia].
  apply set_last_Forall2.
  - rewrite !map_map.
    destruct (Qeq_bool _ 0); rewrite !map_map;
      apply Forall2_map_pointwise; intros v; field; exact Hd.
  - intros d _. destruct num as [|num]; [lia|].
    rewrite seq_S, map_app. cbn [map]. rewrite last_last. simpl Nat.add.
    replace (Z.of_nat (S num) - 1)%Z with (Z.of_nat num) in * by lia.
    field. exact Hd.
Qed.

Lemma init_grid_uniform (g : PropellerGeometry) (num : nat) (tl : Q) :
  (2 <= num)%nat ->
  uniform ((nth 1 (r_stations (init g num tl)) 0
            - nth 0 (r_stations (init g num tl)) 0) / 1)
          (r_stations (init g num tl)).
Proof.
  intros Hn. cbn [r_stations init].
  pose proof (linspace_progression (hub_radius g) (radius g) num Hn) as H.
  pose proof (uniform_Forall2 _ _ _ H (progression_uniform _ _ num 0%nat))
    as Hu.
  pose proof (linspace_length (hub_radius g) (radius g) num) as Hlen.
  destruct (Np.linspace (hub_radius g) (radius g) num) as [|r0 [|r1 r]];
    simpl in Hlen; try lia.
  eapply uniform_Qeq; [|exact Hu].
  destruct Hu as [Hd _]. cbn [nth]. rewrite Hd. field.
  intros E. unfold Qeq in E; simpl in E. lia.
Qed.

Lemma zip_with_map_l (f : Q -> Q -> Q) (g : Q -> Q) (a b : Np.array) :
  Np.zip_with f (map g a) b = Np.zip_with (fun x y => f (g x) y) a b.
Proof.
  revert b; induction a as [|x a IH]; intros [|y b]; simpl; auto.
  now rewrite IH.
Qed.

Lemma zip_with_map_r (f : Q -> Q -> Q) (g : Q -> Q) (a b : Np.array) :
  Np.zip_with f a (map g b) = Np.zip_with (fun x y => f x (g y)) a b.
Proof.
  revert b; induction a as [|x a IH]; intros [|y b]; simpl; auto.
  now rewrite IH.
Qed.

(** C3. With at least two stations, [compute_performance] returns, for
    every coefficient vector and flow: the loading and induced-velocity
    arrays of the two functions above; a thrust equal to the trapezoidal
    integral of the loading over the radial grid; a torque equal to the
    trapezoidal integral of [swirl_factor * loading * station radius] with
    [swirl_factor = 0.05]; and a power equal to the trapezoidal integral of
    [loading * (freestream velocity + induced velocity)] plus
    [torque * angular rate]. *)
Theorem performance_is_trapezoid_integrals (g : PropellerGeometry)
    (num : nat) (tl : Q) (coeffs : list Q) (flow : FlowConditions) :
  (2 <= num)%nat ->
  let self := init g num tl in
  exists p,
    compute_performance self coeffs flow = Some p /\
    compute_loading_distribution self coeffs = Some (loading p) /\
    compute_induced_velocity self (loading p) flow
    = Some (induced_velocity p) /\
    swirl_factor == 0.05 /\
    thrust p == trapezoid_integral (r_stations self) (loading p) /\
    torque p == trapezoid_integral (r_stations self)
                  (Np.zip_with (fun l r => swirl_factor * l * r)
                     (loading p) (r_stations self)) /\
    power p == trapezoid_integral (r_stations self)
                 (Np.zip_with (fun l w => l * (velocity_inf flow + w))
                    (loading p) (induced_velocity p))
               + torque p * omega flow.
Proof.
  intros Hn self.
  assert (Hrs : length (r_stations self) = num)
    by apply init_r_stations_length.
  destruct (performance_unfold self coeffs)
    as (l & dr & Hl & Hlen & _ & Hdr0 & Hp).
  { unfold self. now rewrite init_r_stations_length, init_r_norm_length. }
  { now rewrite Hrs. }
  destruct (Hp flow) as [Hw Hperf].
  pose proof (init_grid_uniform g num tl Hn) as Hu.
  fold self in Hu. rewrite <- Hdr0 in Hu.
  exists (performance_of self l flow (nth 0 dr 0)).
  split; [exact Hperf|]. cbn [performance_of loading induced_velocity
                                thrust torque power].
  split; [exact Hl|]. split; [exact Hw|]. split; [reflexivity|].
  rewrite zip_with_map_l, zip_with_map_r.
  assert (Hint : forall y, length y = length (r_stations self) ->
                   Np.trapz y (nth 0 dr 0)
                   == trapezoid_integral (r_stations self) y).
  { intros y Hy. apply trapz_uniform; auto. }
  split; [apply Hint; exact Hlen|].
  split; [apply Hint; rewrite zip_with_length; auto|].
  rewrite (Hint (Np.zip_with _ l _)); [reflexivity|].
  rewrite zip_with_length; rewrite ?zip_with_length; auto.
Qed.

(** ** The all-zero coefficient vector *)





Lemma sum_zero (a : Np.array) : all_zero a -> Np.sum a == 0.
Proof.
  intros H; induction H as [|x a Hx Ha IH].
  - reflexivity.
  - rewrite sum_cons, Hx, IH. ring.
Qed.




(** ** The optimizer *)

Section OptimizerFacts.

Variable model : RadialActuatorDisk.
Variable flow : FlowConditions.
Variable objective : string.

Lemma call_model_run (coeffs : list Q) (s : OptState) :
  call_model model flow coeffs s
  = (match compute_performance model coeffs flow with
     | Some p => Returned p
     | None => Raised (ValueError "numpy")
     end,
     {| history := history s; iter_count := iter_count s;
        calls := calls s ++ [coeffs] |}).
Proof.
  unfold call_model, bind, modify.
  destruct (compute_performance model coeffs flow); reflexivity.
Qed.

Lemma unrecognized_eqb :
  ~ recognized objective ->
  String.eqb objective "min_power" = false /\
  String.eqb objective "max_thrust" = false.
Proof.
  intros H. split; apply String.eqb_neq; intros E; apply H;
    [left|right]; exact E.
Qed.

Lemma unrecognized_no_constraints (thrust_target power_limit : option Q) :
  ~ recognized objective ->
  build_constraints objective thrust_target power_limit = [].
Proof.
  intros H. destruct (unrecognized_eqb H) as [E1 E2].
  unfold build_constraints. rewrite E1, E2.
  destruct thrust_target, power_limit; reflexivity.
Qed.

Lemma objective_function_unrecognized (coeffs : list Q) (p : Performance)
    (s : OptState) :
  ~ recognized objective ->
  compute_performance model coeffs flow = Some p ->
  objective_function model flow objective coeffs s
  = (Raised (ValueError ("Unknown objective: " ++ objective)),
     {| history :=
          {| History.iter := History.iter (history s) ++ [iter_count s];
             History.objective := History.objective (history s);
             History.thrust := History.thrust (history s) ++ [thrust p];
             History.power := History.power (history s) ++ [power p] |};
        iter_count := (iter_count s + 1)%nat;
        calls := calls s ++ [coeffs] |}).
Proof.
  intros H Hp. destruct (unrecognized_eqb H) as [E1 E2].
  unfold objective_function, bind. rewrite call_model_run, Hp.
  cbn [modify]. rewrite E1, E2. reflexivity.
Qed.

Variable minimize : minimizer.
Variable random_uniform : nat -> list Q.

(** C9. Whenever [optimize_loading] returns a result, its thrust and
    power are those of [compute_performance] on the result's
    [optimal_coeffs] with the same flow, and that evaluation is the last
    call of [compute_performance] the run made. *)
Theorem result_is_reevaluated
    (thrust_target power_limit : option Q)
    (initial_guess : option (list Q)) (n_poly : nat) (bounds : Q * Q)
    (method : string) (r : OptimizationResult.t) (s : OptState) :
  optimize_loading model flow objective minimize random_uniform
    thrust_target power_limit initial_guess n_poly bounds method
  = (Returned r, s) ->
  exists p,
    compute_performance model (OptimizationResult.optimal_coeffs r) flow
    = Some p /\
    OptimizationResult.thrust r = thrust p /\
    OptimizationResult.power r = power p /\
    exists earlier,
      calls s = earlier ++ [OptimizationResult.optimal_coeffs r].
Proof.
  unfold optimize_loading, bind.
  destruct (run _ _ _ _ _ _) as [[res|e] s1]; [|discriminate].
  rewrite call_model_run.
  destruct (compute_performance model (OptimizeResult.x res) flow)
    as [p|] eqn:Hp; [|discriminate].
  cbn [get ret]. intros [= <- <-]. cbn.
  exists p. repeat split; auto. now exists (calls s1).
Qed.

(** C2, as the code has it.  With an objective kind that is neither
    ["min_power"] nor ["max_thrust"], no constraint is registered and
    the solver is started; when its first request is an objective
    evaluation at [x] (where the model evaluates), [optimize_loading]
    raises [ValueError] there, after one call of [compute_performance]:
    the history then holds one iter, thrust and power entry and no
    objective entry, and the counter is 1. *)
Theorem unknown_objective_fails_at_first_evaluation
    (thrust_target power_limit : option Q)
    (initial_guess : option (list Q)) (n_poly : nat) (bounds : Q * Q)
    (method : string) (x : list Q) (k : Q -> Solver) (p : Performance) :
  ~ recognized objective ->
  minimize
    (match initial_guess with
     | None => random_uniform n_poly
     | Some x0 => x0
     end)
    method
    {| lb := repeat (fst bounds) n_poly; ub := repeat (snd bounds) n_poly |}
    0%nat 200%nat
  = EvalFun x k ->
  compute_performance model x flow = Some p ->
  build_constraints objective thrust_target power_limit = [] /\
  optimize_loading model flow objective minimize random_uniform
    thrust_target power_limit initial_guess n_poly bounds method
  = (Raised (ValueError ("Unknown objective: " ++ objective)),
     {| history :=
          {| History.iter := [0%nat];
             History.objective := [];
             History.thrust := [thrust p];
             History.power := [power p] |};
        iter_count := 1;
        calls := [x] |}).
Proof.
  intros H Hmin Hp.
  pose proof (unrecognized_no_constraints thrust_target power_limit H)
    as Hc.
  split; [exact Hc|].
  unfold optimize_loading. rewrite Hc. cbn [length]. rewrite Hmin.
  unfold bind at 1. cbn [run]. unfold bind at 1.
  rewrite (objective_function_unrecognized x p initial_state H Hp).
  reflexivity.
Qed.

End OptimizerFacts.

(** C2 as stated fails: with the unknown kind ["bogus"], the run has
    called [compute_performance] and appended to the history before it
    raises. *)
Lemma unknown_objective_evaluates_model :
  ~ fails_before_any_evaluation
      (optimize_loading model_2 (flow_at 10 5000) "bogus" one_shot no_random
         None None (Some [1]) 1 (0, 10) "SLSQP").
Proof.
  intros (_ & H & _). vm_compute in H. discriminate.
Qed.

Lemma unknown_objective_fails_at_first_evaluation_witness :
  exists p,
    (~ recognized "bogus" /\
     one_shot [1] "SLSQP"%string {| lb := repeat (fst (0, 10)) 1;
                             ub := repeat (snd (0, 10)) 1 |} 0%nat 200%nat
     = EvalFun [1] (fun v =>
         Finish {| OptimizeResult.x := [1];
                   OptimizeResult.fun_ := v;
                   OptimizeResult.nit := 1;
                   OptimizeResult.success := true;
                   OptimizeResult.message :=
                     "Optimization terminated successfully" |}) /\
     compute_performance model_2 [1] (flow_at 10 5000) = Some p) /\
    (build_constraints "bogus" None None = [] /\
     optimize_loading model_2 (flow_at 10 5000) "bogus" one_shot no_random
       None None (Some [1]) 1 (0, 10) "SLSQP"
     = (Raised (ValueError ("Unknown objective: " ++ "bogus")),
        {| history :=
             {| History.iter := [0%nat];
                History.objective := [];
                History.thrust := [thrust p];
                History.power := [power p] |};
           iter_count := 1;
           calls := [[1]] |})).
Proof.
  assert (Hr : ~ recognized "bogus")
    by (intros [E|E]; discriminate E).
  destruct (performance_total geom_025 2 0.95 [1] (flow_at 10 5000))
    as [p Hp]; [lia|].
  exists p. split; [repeat split; [exact Hr|exact Hp]|].
  exact (unknown_objective_fails_at_first_evaluation
           model_2 (flow_at 10 5000) "bogus" one_shot no_random
           None None (Some [1]) 1%nat (0, 10) "SLSQP" [1] _ p Hr
           eq_refl Hp).
Defined.

Lemma result_is_reevaluated_witness :
  exists r s,
    optimize_loading model_2 (flow_at 10 5000) "min_power" one_shot
      no_random (Some 15) None None 1 (0, 8) "SLSQP" = (Returned r, s) /\
    exists p,
      compute_performance model_2 (OptimizationResult.optimal_coeffs r)
        (flow_at 10 5000) = Some p /\
      OptimizationResult.thrust r = thrust p /\
      OptimizationResult.power r = power p /\
      exists earlier,
        calls s = earlier ++ [OptimizationResult.optimal_coeffs r].
Proof.
  eexists. eexists. split.
  - vm_compute. reflexivity.
  - eapply (result_is_reevaluated model_2 (flow_at 10 5000) "min_power"
              one_shot no_random (Some 15) None None 1%nat (0, 8) "SLSQP").
    vm_compute. reflexivity.
Defined.

(** ** Thrust and power against the rotational speed *)

Lemma omega_increasing (v rh r1 r2 : Q) :
  r1 < r2 ->
  omega {| velocity_inf := v; rpm := r1; rho := rh |}
  < omega {| velocity_inf := v; rpm := r2; rho := rh |}.
Proof.
  intros H. unfold omega; cbn [rpm]. unfold Qdiv.
  apply Qmult_lt_compat_r; [reflexivity|].
  unfold Np.pi. lra.
Qed.

(** Between two flows that differ in rpm only, the power grows with the
    rpm as soon as the torque is positive. *)
Lemma power_increases_with_rpm (self : RadialActuatorDisk) (l : Np.array)
    (d v rh r1 r2 : Q) :
  0 < torque (performance_of self l
                {| velocity_inf := v; rpm := r1; rho := rh |} d) ->
  r1 < r2 ->
  power (performance_of self l {| velocity_inf := v; rpm := r1; rho := rh |} d)
  < power (performance_of self l
             {| velocity_inf := v; rpm := r2; rho := rh |} d).
Proof.
  intros Ht Hr. pose proof (omega_increasing v rh r1 r2 Hr) as Ho.
  cbn [performance_of power torque] in *.
  unfold picard, corrector, first_estimate, momentum_velocity.
  cbn [Nat.iter velocity_inf rho].
  apply Qplus_lt_r. apply Qmult_lt_l; assumption.
Qed.

Lemma test_torque_positive :
  match compute_loading_distribution model_20 elliptic,
        Np.gradient (r_stations model_20) with
  | Some l, Some dr =>
      0 < Np.trapz (Np.zip_with Qmult (map (fun x => swirl_factor * x) l)
                      (r_stations model_20)) (nth 0 dr 0)
  | _, _ => False
  end.
Proof. vm_compute. reflexivity. Qed.

(** C1, on the code.  On the model of the repository's test (diameter
    0.25, 20 stations), with the coefficients [0.5, 1.0, 3.0, -1.5, 0.0]
    and a freestream velocity of 10, the three calls at 2000, 4000 and 6000
    rpm return; their thrusts are one and the same value, so the thrust
    does not increase; their powers do increase strictly. *)
Theorem thrust_constant_power_increasing_with_rpm :
  exists p2 p4 p6,
    compute_performance model_20 elliptic (flow_at 10 2000) = Some p2 /\
    compute_performance model_20 elliptic (flow_at 10 4000) = Some p4 /\
    compute_performance model_20 elliptic (flow_at 10 6000) = Some p6 /\
    thrust p2 = thrust p4 /\ thrust p4 = thrust p6 /\
    ~ thrust p2 < thrust p4 /\ ~ thrust p4 < thrust p6 /\
    power p2 < power p4 /\ power p4 < power p6.
Proof.
  destruct (performance_unfold model_20 elliptic)
    as (l & dr & Hl & _ & Hdr & _ & Hp).
  { unfold model_20. now rewrite init_r_stations_length, init_r_norm_length. }
  { unfold model_20. rewrite init_r_stations_length. lia. }
  pose proof test_torque_positive as Ht. rewrite Hl, Hdr in Ht.
  exists (performance_of model_20 l (flow_at 10 2000) (nth 0 dr 0)),
         (performance_of model_20 l (flow_at 10 4000) (nth 0 dr 0)),
         (performance_of model_20 l (flow_at 10 6000) (nth 0 dr 0)).
  repeat (split; [apply Hp|]).
  split; [reflexivity|]. split; [reflexivity|].
  split; [apply Qlt_irrefl|]. split; [apply Qlt_irrefl|].
  split; apply power_increases_with_rpm; try exact Ht; reflexivity.
Qed.

(** ** The statements at concrete inputs *)

Lemma geom_025_valid : valid_geometry geom_025.
Proof. repeat split. vm_compute. discriminate. Defined.

Lemma loading_elementwise_nonneg_witness :
  valid_geometry geom_025 /\
  exists dT_dr,
    compute_loading_distribution (init geom_025 3 0.95) elliptic
    = Some dT_dr /\
    length dT_dr = 3%nat /\ Forall (fun x => 0 <= x) dT_dr.
Proof.
  split; [exact geom_025_valid|].
  exact (loading_elementwise_nonneg geom_025 3 0.95 elliptic geom_025_valid).
Defined.

Lemma taper_profile_witness :
  (0 < tip_loss model_2 /\ tip_loss model_2 <= 1) /\
  Forall2 (fun x t =>
             (tip_loss model_2 <= t /\ t <= 1) /\
             (x <= 0.7 -> t == 1) /\
             (0.7 <= x -> x <= 1 ->
              t == linear_between 0.7 1 1 (tip_loss model_2) x) /\
             (1 <= x -> t == tip_loss model_2))
          (r_norm model_2) (taper model_2).
Proof.
  assert (H0 : 0 < tip_loss model_2) by reflexivity.
  assert (H1 : tip_loss model_2 <= 1) by (vm_compute; discriminate).
  split; [split; assumption|].
  exact (proj1 (taper_profile model_2 H0 H1)).
Defined.

Lemma induced_velocity_single_picard_witness :
  length [1; 2] = length (r_stations model_2) /\
  compute_induced_velocity model_2 [1; 2] (flow_at 10 5000)
  = Some (Np.zip_with (picard (flow_at 10 5000) 1) [1; 2]
            (r_stations model_2)).
Proof.
  assert (H : length [1; 2] = length (r_stations model_2)) by reflexivity.
  split; [exact H|].
  exact (proj1 (induced_velocity_single_picard model_2 [1; 2]
                  (flow_at 10 5000) H)).
Defined.


Lemma performance_is_trapezoid_integrals_witness :
  (2 <= 2)%nat /\
  exists p,
    compute_performance model_2 [1] (flow_at 10 5000) = Some p /\
    thrust p == trapezoid_integral (r_stations model_2) (loading p).
Proof.
  assert (H : (2 <= 2)%nat) by lia.
  split; [exact H|].
  destruct (performance_is_trapezoid_integrals geom_025 2 0.95 [1]
              (flow_at 10 5000) H) as (p & Hp & _ & _ & _ & Ht & _).
  exists p. split; assumption.
Defined.


(** * Further properties of the code *)

(** ** The radial grid built by [__init__] *)

Lemma valid_geometry_hub_below_tip (g : PropellerGeometry) :
  valid_geometry g -> 0 < hub_radius g /\ hub_radius g < radius g.
Proof.
  intros (Hd & _ & Hlo & Hhi). unfold hub_radius, radius.
  assert (E : diameter g / 2 == diameter g * (1 # 2)) by field.
  rewrite E. split; nra.
Qed.

Lemma uniform_increasing (d : Q) (x : Np.array) :
  0 < d -> uniform d x -> increasing x.
Proof.
  intros Hd. induction x as [|x0 x IH]; [exact (fun _ => I)|].
  destruct x as [|x1 x]; [exact (fun _ => I)|].
  cbn [uniform increasing]. intros [H Hu]. split; [lra|exact (IH Hu)].
Qed.

Lemma set_last_last (y : Np.array) (v d : Q) :
  y <> [] -> last (Np.set_last y v) d = v.
Proof.
  induction y as [|x y IH]; [congruence|]. intros _.
  destruct y as [|x' y]; [reflexivity|].
  assert (IH' : last (Np.set_last (x' :: y) v) d = v)
    by (apply IH; discriminate).
  destruct y as [|x'' y]; [reflexivity|].
  cbn [Np.set_last last] in *. exact IH'.
Qed.

Lemma linspace_last (start stop : Q) (num : nat) (d : Q) :
  (2 <= num)%nat -> last (Np.linspace start stop num) d = stop.
Proof.
  intros Hn. unfold Np.linspace.
  destruct (Nat.ltb_spec 1 num) as [_|]; [|lia].
  apply set_last_last. intros E. apply (f_equal (@length Q)) in E.
  rewrite length_map in E.
  destruct (0 <? Z.of_nat num - 1)%Z; try destruct (Qeq_bool _ 0);
    rewrite !length_map, length_seq in E; simpl in E; lia.
Qed.

(** X1. For a valid geometry and at least two stations, the grid has one
    entry per station, starts at the hub radius, ends exactly at the tip
    radius and grows strictly from one station to the next. *)
Theorem grid_from_hub_to_tip_increasing (g : PropellerGeometry) (num : nat)
    (tl : Q) :
  valid_geometry g -> (2 <= num)%nat ->
  length (r_stations (init g num tl)) = num /\
  nth 0 (r_stations (init g num tl)) 0 == hub_radius g /\
  last (r_stations (init g num tl)) 0 = radius g /\
  increasing (r_stations (init g num tl)).
Proof.
  intros Hg Hn. destruct (valid_geometry_hub_below_tip g Hg) as [Hhub Htip].
  split; [apply init_r_stations_length|]. cbn [r_stations init].
  pose proof (linspace_progression (hub_radius g) (radius g) num Hn) as H.
  assert (Hd : 0 < inject_Z (Z.of_nat num - 1))
    by (unfold Qlt; simpl; lia).
  assert (Hstep : 0 < (radius g - hub_radius g) / inject_Z (Z.of_nat num - 1)).
  { apply Qlt_shift_div_l; [exact Hd|lra]. }
  split; [|split].
  - destruct num as [|num]; [lia|]. unfold progression in H.
    cbn [seq map] in H. inversion H as [|a b x y Hab _]; subst.
    cbn [nth]. rewrite Hab. simpl. ring.
  - now apply linspace_last.
  - eapply uniform_increasing; [exact Hstep|].
    eapply uniform_Forall2; [exact H|apply progression_uniform].
Qed.

Lemma Forall2_Qeq_Forall (P : Q -> Prop) (x x' : Np.array) :
  (forall a b, a == b -> P b -> P a) ->
  Forall2 Qeq x x' -> Forall P x' -> Forall P x.
Proof.
  intros HP H; induction H as [|a b x x' Hab _ IH]; intros HF;
    constructor; inversion HF; subst; eauto.
Qed.

Lemma inject_nat_le (i j : nat) :
  (i <= j)%nat -> inject_Z (Z.of_nat i) <= inject_Z (Z.of_nat j).
Proof. intros H. unfold Qle; simpl. lia. Qed.

Lemma linspace_bounds (start stop : Q) (num : nat) :
  start <= stop ->
  Forall (fun r => start <= r /\ r <= stop) (Np.linspace start stop num).
Proof.
  intros Hle. destruct (le_lt_dec 2 num) as [Hn|Hn].
  - eapply Forall2_Qeq_Forall;
      [|exact (linspace_progression start stop num Hn)|].
    + intros a b Hab [H1 H2]. rewrite Hab. split; assumption.
    + unfold progression. apply Forall_map, Forall_forall.
      intros i Hi. apply in_seq in Hi.
      assert (Hd : 0 < inject_Z (Z.of_nat num - 1))
        by (unfold Qlt; simpl; lia).
      assert (Hi0 : 0 <= inject_Z (Z.of_nat i)) by apply inject_nat_nonneg.
      assert (Hi1 : inject_Z (Z.of_nat i) <= inject_Z (Z.of_nat num - 1))
        by (unfold Qle; simpl; lia).
      set (v := inject_Z (Z.of_nat i)) in *.
      set (dv := inject_Z (Z.of_nat num - 1)) in *.
      assert (Hs : 0 <= (stop - start) / dv)
        by (apply Qle_shift_div_l; [exact Hd|lra]).
      assert (Hfull : dv * ((stop - start) / dv) == stop - start)
        by (field; lra).
      set (step := (stop - start) / dv) in *. clearbody step v dv.
      split; nra.
  - unfold Np.linspace.
    destruct (Nat.ltb_spec 1 num) as [|_]; [lia|].
    destruct (Z.ltb_spec 0 (Z.of_nat num - 1)) as [|_]; [lia|].
    destruct num as [|[|num]]; [constructor| |lia].
    cbn [seq map]. constructor; [|constructor].
    change (inject_Z (Z.of_nat 0)) with 0. split; lra.
Qed.

Lemma init_radii_range (g : PropellerGeometry) (num : nat)
    (tl : Q) :
  valid_geometry g ->
  Forall (fun r => hub_radius g <= r /\ r <= radius g)
         (r_stations (init g num tl)) /\
  Forall (fun x => 0 < x /\ hub_radius_ratio g <= x /\ x <= 1)
         (r_norm (init g num tl)).
Proof.
  intros Hg. destruct (valid_geometry_hub_below_tip g Hg) as [Hhub Htip].
  assert (Hr : Forall (fun r => hub_radius g <= r /\ r <= radius g)
                 (r_stations (init g num tl))).
  { cbn [r_stations init]. apply linspace_bounds. lra. }
  split; [exact Hr|]. cbn [r_norm init]. apply Forall_map.
  eapply Forall_impl; [|exact Hr]. intros r [H1 H2]. cbv beta.
  destruct Hg as (_ & _ & Hlo & _).
  assert (Hrad : 0 < radius g) by lra.
  pose proof H1 as H1'. unfold hub_radius in H1'.
  split; [|split].
  - apply Qlt_shift_div_l; [exact Hrad|lra].
  - apply Qle_shift_div_l; [exact Hrad|lra].
  - apply Qle_shift_div_r; [exact Hrad|lra].
Qed.

(** X2. For a valid geometry and any number of stations, every normalized
    radius lies between the hub-radius ratio and 1, hence in (0, 1], and
    every station radius between the hub radius and the tip radius. *)
Theorem normalized_radii_in_range (g : PropellerGeometry) (num : nat)
    (tl : Q) :
  valid_geometry g ->
  Forall (fun r => hub_radius g <= r /\ r <= radius g)
         (r_stations (init g num tl)) /\
  Forall (fun x => 0 < x /\ hub_radius_ratio g <= x /\ x <= 1)
         (r_norm (init g num tl)).
Proof. apply init_radii_range. Qed.

Lemma last_map_nonempty (f : Q -> Q) (l : Np.array) (d : Q) :
  l <> [] -> last (map f l) (f d) = f (last l d).
Proof.
  induction l as [|x l IH]; [congruence|]. intros _.
  destruct l as [|x' l]; [reflexivity|].
  cbn [map last] in *. apply IH. discriminate.
Qed.

Lemma last_default (l : Np.array) (d d' : Q) :
  l <> [] -> last l d = last l d'.
Proof.
  induction l as [|x l IH]; [congruence|]. intros _.
  destruct l as [|x' l]; [reflexivity|].
  cbn [last] in *. apply IH. discriminate.
Qed.

(** X3. At the tip station (at least two stations, valid geometry) the
    normalized radius is 1, and for a tip-loss factor of at most 1 the taper
    applied there is the tip-loss factor itself. *)
Theorem tip_station_taper (g : PropellerGeometry) (num : nat) (tl : Q) :
  valid_geometry g -> (2 <= num)%nat -> tl <= 1 ->
  last (r_norm (init g num tl)) 0 == 1 /\
  last (taper (init g num tl)) 0 == tl.
Proof.
  intros Hg Hn Htl. destruct (valid_geometry_hub_below_tip g Hg) as [Hhub Htip].
  assert (Hne : Np.linspace (hub_radius g) (radius g) num <> []).
  { intros E. apply (f_equal (@length Q)) in E.
    rewrite linspace_length in E. simpl in E. lia. }
  assert (Hne1 : r_norm (init g num tl) <> []).
  { intros E. apply (f_equal (@length Q)) in E.
    rewrite init_r_norm_length in E. simpl in E. lia. }
  assert (Hne2 : taper (init g num tl) <> []).
  { intros E. apply (f_equal (@length Q)) in E.
    rewrite taper_length, init_r_norm_length in E. simpl in E. lia. }
  rewrite (last_default _ 0 (0 / radius g) Hne1).
  rewrite (last_default _ 0 (Np.clip (taper_raw tl (0 / radius g)) tl 1) Hne2).
  assert (Hx : last (r_norm (init g num tl)) (0 / radius g) == 1).
  { cbn [r_norm init].
    rewrite (last_map_nonempty (fun r => r / radius g)); [|exact Hne].
    rewrite linspace_last by exact Hn. field. lra. }
  split; [exact Hx|].
  unfold taper. cbn [tip_loss init r_norm] in *.
  rewrite (last_map_nonempty (fun t => Np.clip t tl 1)).
  - rewrite (last_map_nonempty (taper_raw tl)).
    + set (x := last _ _) in *. clearbody x.
      pose proof (taper_raw_linear tl x) as Hraw.
      unfold Np.clip, Np.minimum, Np.maximum.
      set (raw := taper_raw tl x) in *. clearbody raw.
      qcases; nra.
    + intros E. apply (f_equal (@length Q)) in E.
      rewrite length_map in E. simpl in E.
      apply Hne. now apply length_zero_iff_nil.
  - intros E. apply (f_equal (@length Q)) in E.
    rewrite !length_map in E. simpl in E.
    apply Hne. now apply length_zero_iff_nil.
Qed.

(** ** The loading as a clamped, tapered polynomial *)

Lemma Forall2_Qeq_trans (x y z : Np.array) :
  Forall2 Qeq x y -> Forall2 Qeq y z -> Forall2 Qeq x z.
Proof.
  intros H; revert z; induction H as [|a b x y Hab _ IH]; intros z Hz;
    inversion Hz; subst; constructor; [now rewrite Hab|auto].
Qed.

Lemma Forall2_Qeq_refl (x : Np.array) : Forall2 Qeq x x.
Proof. induction x; constructor; auto. reflexivity. Qed.

Lemma maximum_Qeq (x x' y : Q) :
  x == x' -> Np.maximum x y == Np.maximum x' y.
Proof. intros H. unfold Np.maximum. qcases; lra. Qed.

Lemma loading_loop_power_sum (rn : Np.array) (coeffs : list Q) :
  forall (i : nat) (acc l : Np.array),
    length acc = length rn ->
    loading_loop rn i coeffs acc = Some l ->
    Forall2 Qeq l (Np.zip_with (fun a x => a + polynomial coeffs i x) acc rn).
Proof.
  induction coeffs as [|c coeffs IH]; intros i acc l Hlen; simpl.
  - intros [= <-]. clear - Hlen. revert rn Hlen.
    induction acc as [|a acc IH]; intros [|x rn] Hlen; try discriminate;
      simpl; constructor; [ring|]. apply IH. now injection Hlen.
  - unfold Np.iadd. rewrite iop_same by now rewrite length_map.
    simpl. intros Hl. apply IH in Hl;
      [|rewrite zip_with_length; now rewrite ?length_map].
    eapply Forall2_Qeq_trans; [exact Hl|]. clear. revert rn.
    induction acc as [|a acc IHa]; intros [|x rn]; simpl; constructor;
      [ring|apply IHa].
Qed.

Lemma zeros_plus_polynomial (p : Q -> Q) (z rn : Np.array) :
  length z = length rn ->
  Forall2 Qeq (Np.zip_with (fun a x => a + p x) (map (fun _ => 0) z) rn)
              (map p rn).
Proof.
  revert rn; induction z as [|a z IH]; intros [|x rn] Hlen;
    try discriminate; simpl; constructor; [ring|].
  apply IH. now injection Hlen.
Qed.

Lemma clamp_taper_elementwise (p t : Q -> Q) (rn : Np.array) :
  forall l1, Forall2 Qeq l1 (map p rn) ->
    Forall2 (fun x v => v == Np.maximum (p x * t x) 0) rn
      (map (fun y => Np.maximum y 0) (Np.zip_with Qmult l1 (map t rn))).
Proof.
  induction rn as [|x rn IH]; intros l1 H; inversion H; subst; simpl;
    constructor; [|now apply IH].
  apply maximum_Qeq. match goal with E : _ == p x |- _ => rewrite E end.
  reflexivity.
Qed.

Lemma loading_elementwise (g : PropellerGeometry)
    (num : nat) (tl : Q) (coeffs : list Q) :
  exists l,
    compute_loading_distribution (init g num tl) coeffs = Some l /\
    Forall2 (fun x v =>
               v == Np.maximum (polynomial coeffs 0 x
                                * Np.clip (taper_raw tl x) tl 1) 0)
            (r_norm (init g num tl)) l.
Proof.
  assert (Hal : length (r_stations (init g num tl))
                = length (r_norm (init g num tl)))
    by now rewrite init_r_stations_length, init_r_norm_length.
  destruct (loading_total (init g num tl) coeffs Hal) as (l & Hl & _).
  exists l. split; [exact Hl|].
  unfold compute_loading_distribution in Hl.
  destruct (loading_loop _ _ _ _) as [l1|] eqn:E1; [|discriminate].
  apply loading_loop_power_sum in E1; [|now rewrite length_map].
  pose proof (Forall2_Qeq_trans _ _ _ E1
                (zeros_plus_polynomial (polynomial coeffs 0) _ _ Hal)) as H1.
  simpl in Hl. unfold Np.imul in Hl.
  rewrite iop_same in Hl.
  - simpl in Hl. injection Hl as <-.
    unfold taper. rewrite map_map. cbn [tip_loss init].
    apply (clamp_taper_elementwise (polynomial coeffs 0)
             (fun x => Np.clip (taper_raw tl x) tl 1)).
    exact H1.
  - rewrite taper_length.
    apply Forall2_length in H1. now rewrite length_map in H1.
Qed.

(** X4. For every model built by [__init__] and every coefficient vector,
    the loading at a station of normalized radius [x] is
    [max(P(x) * taper(x), 0)], where [P] is the power sum of the
    coefficients and [taper(x)] the clipped tip-loss taper. *)
Theorem loading_is_clamped_tapered_polynomial (g : PropellerGeometry)
    (num : nat) (tl : Q) (coeffs : list Q) :
  exists l,
    compute_loading_distribution (init g num tl) coeffs = Some l /\
    Forall2 (fun x v =>
               v == Np.maximum (polynomial coeffs 0 x
                                * Np.clip (taper_raw tl x) tl 1) 0)
            (r_norm (init g num tl)) l.
Proof. apply loading_elementwise. Qed.

(** ** Signs of thrust, torque and power *)

Lemma Forall_tl (P : Q -> Prop) (y : Np.array) : Forall P y -> Forall P (tl y).
Proof. intros H; destruct H; simpl; auto. Qed.

Lemma Forall_removelast (P : Q -> Prop) (y : Np.array) :
  Forall P y -> Forall P (removelast y).
Proof.
  intros H; induction H as [|x y Hx Hy IH]; simpl; [constructor|].
  destruct y; [constructor|]. constructor; auto.
Qed.

Lemma sum_nonneg (a : Np.array) :
  Forall (fun x => 0 <= x) a -> 0 <= Np.sum a.
Proof.
  intros H; induction H as [|x a Hx Ha IH].
  - unfold Np.sum; simpl. lra.
  - rewrite sum_cons. lra.
Qed.

Lemma trapz_nonneg (y : Np.array) (d : Q) :
  Forall (fun x => 0 <= x) y -> 0 <= d -> 0 <= Np.trapz y d.
Proof.
  intros Hy Hd. unfold Np.trapz. apply sum_nonneg, Forall_map.
  eapply Forall_impl;
    [|apply (zip_with_Forall Qplus (fun x => 0 <= x) (fun x => 0 <= x)
               (fun x => 0 <= x));
      [|apply Forall_tl, Hy|apply Forall_removelast, Hy]].
  - intros s Hs. cbv beta in *.
    assert (E : d * s / 2 == d * s * (1 # 2)) by field.
    rewrite E. nra.
  - intros x z Hx Hz. lra.
Qed.

Lemma init_grid_spacing_pos (g : PropellerGeometry) (num : nat) (tl : Q) :
  valid_geometry g -> (2 <= num)%nat ->
  0 < (nth 1 (r_stations (init g num tl)) 0
       - nth 0 (r_stations (init g num tl)) 0) / 1.
Proof.
  intros Hg Hn. destruct (valid_geometry_hub_below_tip g Hg) as [Hhub Htip].
  cbn [r_stations init].
  pose proof (linspace_progression (hub_radius g) (radius g) num Hn) as H.
  pose proof (uniform_Forall2 _ _ _ H (progression_uniform _ _ num 0%nat))
    as Hu.
  pose proof (linspace_length (hub_radius g) (radius g) num) as Hlen.
  assert (Hd : 0 < inject_Z (Z.of_nat num - 1))
    by (unfold Qlt; simpl; lia).
  assert (Hstep : 0 < (radius g - hub_radius g) / inject_Z (Z.of_nat num - 1)).
  { apply Qlt_shift_div_l; [exact Hd|lra]. }
  destruct (Np.linspace (hub_radius g) (radius g) num) as [|r0 [|r1 r]];
    simpl in Hlen; try lia.
  destruct Hu as [Hu _]. cbn [nth].
  assert (E : (r1 - r0) / 1 == r1 - r0) by field.
  rewrite E, Hu. exact Hstep.
Qed.

Lemma torque_nonneg (self : RadialActuatorDisk) (l : Np.array)
    (flow : FlowConditions) (d : Q) :
  Forall (fun r => 0 < r) (r_stations self) ->
  Forall (fun x => 0 <= x) l -> 0 <= d ->
  0 <= torque (performance_of self l flow d).
Proof.
  intros Hr Hl Hd. cbn [performance_of torque]. apply trapz_nonneg; auto.
  apply (zip_with_Forall Qmult (fun x => 0 <= x) (fun r => 0 < r)).
  - intros x y Hx Hy. apply Qmult_le_0_compat; lra.
  - apply Forall_map. eapply Forall_impl; [|exact Hl].
    intros x Hx. cbv beta in *. unfold swirl_factor. lra.
  - exact Hr.
Qed.



(** X6. Between two flows that differ in rpm only, [compute_performance]
    (at least two stations) returns the same thrust, torque, loading and
    induced velocity, and the two powers differ by the torque times the
    difference of the angular rates: the power is affine in the rpm. *)
Theorem power_affine_in_rpm (g : PropellerGeometry) (num : nat) (tl : Q)
    (coeffs : list Q) (v rh r1 r2 : Q) :
  (2 <= num)%nat ->
  let flow1 := {| velocity_inf := v; rpm := r1; rho := rh |} in
  let flow2 := {| velocity_inf := v; rpm := r2; rho := rh |} in
  exists p1 p2,
    compute_performance (init g num tl) coeffs flow1 = Some p1 /\
    compute_performance (init g num tl) coeffs flow2 = Some p2 /\
    thrust p1 = thrust p2 /\ torque p1 = torque p2 /\
    loading p1 = loading p2 /\
    induced_velocity p1 = induced_velocity p2 /\
    power p2 - power p1 == torque p1 * (omega flow2 - omega flow1).
Proof.
  intros Hn flow1 flow2.
  destruct (performance_unfold (init g num tl) coeffs)
    as (l & dr & _ & _ & _ & _ & Hp).
  { now rewrite init_r_stations_length, init_r_norm_length. }
  { now rewrite init_r_stations_length. }
  destruct (Hp flow1) as [_ H1]. destruct (Hp flow2) as [_ H2].
  eexists. eexists. split; [exact H1|]. split; [exact H2|].
  cbn [performance_of thrust torque power loading induced_velocity].
  repeat (split; [reflexivity|]).
  unfold picard, corrector, first_estimate, momentum_velocity.
  cbn [Nat.iter velocity_inf rho flow1 flow2]. ring.
Qed.

(** X7. For a valid geometry with at least two stations, raising the rpm
    (freestream velocity and density unchanged) never lowers the power. *)
Theorem power_monotone_in_rpm (g : PropellerGeometry) (num : nat) (tl : Q)
    (coeffs : list Q) (v rh r1 r2 : Q) :
  valid_geometry g -> (2 <= num)%nat -> r1 <= r2 ->
  exists p1 p2,
    compute_performance (init g num tl) coeffs
      {| velocity_inf := v; rpm := r1; rho := rh |} = Some p1 /\
    compute_performance (init g num tl) coeffs
      {| velocity_inf := v; rpm := r2; rho := rh |} = Some p2 /\
    power p1 <= power p2.
Proof.
  intros Hg Hn Hr.
  destruct (performance_unfold (init g num tl) coeffs)
    as (l & dr & Hl & _ & _ & Hdr0 & Hp).
  { now rewrite init_r_stations_length, init_r_norm_length. }
  { now rewrite init_r_stations_length. }
  destruct (Hp {| velocity_inf := v; rpm := r1; rho := rh |}) as [_ H1].
  destruct (Hp {| velocity_inf := v; rpm := r2; rho := rh |}) as [_ H2].
  pose proof (init_grid_spacing_pos g num tl Hg Hn) as Hd.
  rewrite <- Hdr0 in Hd.
  assert (Hd0 : 0 <= nth 0 dr 0) by lra.
  pose proof (torque_nonneg (init g num tl) l
                {| velocity_inf := v; rpm := r1; rho := rh |} _
                (init_r_stations_pos g num tl Hg)
                (loading_nonneg_any _ _ _ Hl) Hd0) as Htq.
  eexists. eexists. split; [exact H1|]. split; [exact H2|].
  cbn [performance_of torque power] in *.
  unfold picard, corrector, first_estimate, momentum_velocity.
  cbn [Nat.iter velocity_inf rho].
  apply Qplus_le_r. unfold omega; cbn [rpm].
  set (T := Np.trapz _ _) in *. clearbody T.
  assert (E : forall r, r * 2 * Np.pi / 60 == r * (2 * Np.pi * (1 # 60)))
    by (intros; field).
  rewrite !E. unfold Np.pi. nra.
Qed.

(** ** Induced velocity: bounds and shapes *)




Lemma binop_shape (f : Q -> Q -> Q) (a b : Np.array) :
  match Np.binop f a b with
  | Some c =>
      (length a = length b \/ length a = 1%nat \/ length b = 1%nat) /\
      length c = (if Nat.eqb (length a) 1 then length b else length a)
  | None =>
      length a <> length b /\ length a <> 1%nat /\ length b <> 1%nat
  end.
Proof.
  unfold Np.binop. destruct (Nat.eqb_spec (length a) (length b)) as [E|E].
  - split; [now left|]. rewrite zip_with_length by exact E.
    destruct (Nat.eqb_spec (length a) 1); congruence.
  - destruct a as [|x [|x' a]]; destruct b as [|y [|y' b]];
      simpl in *; rewrite ?length_map; simpl;
      try (split; [tauto|reflexivity]);
      try (repeat split; congruence).
Qed.

(** X9. [compute_induced_velocity] follows numpy's broadcasting: it returns
    exactly when the loading has the grid's length or one of the two has
    length 1, and the result then has the length of the longer one (that of
    the grid when the loading has length 1); otherwise it raises. *)
Theorem induced_velocity_shape (self : RadialActuatorDisk)
    (dT_dr : Np.array) (flow : FlowConditions) :
  match compute_induced_velocity self dT_dr flow with
  | Some w =>
      (length dT_dr = length (r_stations self) \/
       length dT_dr = 1%nat \/ length (r_stations self) = 1%nat) /\
      length w = (if Nat.eqb (length dT_dr) 1
                  then length (r_stations self) else length dT_dr)
  | None =>
      length dT_dr <> length (r_stations self) /\
      length dT_dr <> 1%nat /\ length (r_stations self) <> 1%nat
  end.
Proof.
  unfold compute_induced_velocity, Np.div, Np.mul.
  match goal with
  | |- context [Np.binop Qdiv dT_dr ?d] =>
      pose proof (binop_shape Qdiv dT_dr d) as H0;
      destruct (Np.binop Qdiv dT_dr d) as [w0|]
  end; rewrite !length_map in H0; [|exact H0].
  cbn [obind]. destruct H0 as [Hc Hw0].
  match goal with
  | |- context [Np.binop Qmult ?a ?b] =>
      pose proof (binop_shape Qmult a b) as H1;
      destruct (Np.binop Qmult a b) as [den|]
  end; rewrite !length_map in H1.
  - cbn [obind]. destruct H1 as [_ Hden].
    match goal with
    | |- context [Np.binop Qdiv dT_dr ?d] =>
        pose proof (binop_shape Qdiv dT_dr d) as H2;
        destruct (Np.binop Qdiv dT_dr d) as [w|]
    end; rewrite !length_map in H2.
    + cbn [obind]. destruct H2 as [_ Hw]. split; [exact Hc|].
      rewrite Hw. destruct (Nat.eqb_spec (length dT_dr) 1); [|reflexivity].
      rewrite Hden, Hw0.
      destruct (Nat.eqb_spec (length dT_dr) 1); [|lia].
      destruct (Nat.eqb_spec (length (r_stations self)) 1); reflexivity.
    + exfalso. destruct H2 as (A & B & C).
      destruct (Nat.eqb_spec (length dT_dr) 1); [lia|].
      destruct (Nat.eqb_spec (length w0) 1); lia.
  - exfalso. destruct H1 as (A & B & C).
    destruct (Nat.eqb_spec (length dT_dr) 1); lia.
Qed.

(** X10. A model with fewer than two stations still has a loading
    distribution, but [compute_performance] raises on it for every
    coefficient vector and flow ([np.gradient] needs two points). *)
Theorem performance_needs_two_stations (g : PropellerGeometry) (num : nat)
    (tl : Q) (coeffs : list Q) (flow : FlowConditions) :
  (num < 2)%nat ->
  compute_performance (init g num tl) coeffs flow = None /\
  exists l, compute_loading_distribution (init g num tl) coeffs = Some l /\
            length l = num.
Proof.
  intros Hn. split.
  - apply performance_none. now rewrite init_r_stations_length.
  - destruct (loading_total (init g num tl) coeffs) as (l & Hl & Hlen).
    + now rewrite init_r_stations_length, init_r_norm_length.
    + exists l. split; [exact Hl|]. now rewrite Hlen, init_r_stations_length.
Qed.

(** ** Non-dimensional coefficients ([metrics.py]) *)

Lemma power_2 (x : Q) : Np.power x 2 == x * x.
Proof. unfold Np.power. simpl. ring. Qed.
Lemma power_3 (x : Q) : Np.power x 3 == x * x * x.
Proof. unfold Np.power. simpl. ring. Qed.
Lemma power_4 (x : Q) : Np.power x 4 == (x * x) * (x * x).
Proof. unfold Np.power. simpl. ring. Qed.
Lemma power_5 (x : Q) : Np.power x 5 == (x * x) * (x * x) * x.
Proof. unfold Np.power. simpl. ring. Qed.

Lemma rev_per_sec_pos (flow : FlowConditions) : 0 < rpm flow -> 0 < n flow.
Proof.
  intros H. unfold n. apply Qlt_shift_div_l; [reflexivity|lra].
Qed.

Lemma thrust_scale_pos (g : PropellerGeometry) (flow : FlowConditions) :
  0 <= rho flow ->
  0 < rho flow * Np.power (n flow) 2 * Np.power (diameter g) 4
      + 0.000000000001.
Proof.
  intros Hrho. rewrite power_2, power_4.
  set (a := n flow). set (d := diameter g).
  assert (0 <= a * a) by nra. assert (0 <= d * d) by nra.
  assert (0 <= (d * d) * (d * d)) by (apply Qmult_le_0_compat; assumption).
  assert (0 <= rho flow * (a * a)) by (apply Qmult_le_0_compat; assumption).
  assert (0 <= rho flow * (a * a) * ((d * d) * (d * d)))
    by (apply Qmult_le_0_compat; assumption).
  lra.
Qed.

Lemma power_scale_pos (g : PropellerGeometry) (flow : FlowConditions) :
  0 <= rho flow -> 0 <= n flow -> 0 <= diameter g ->
  0 < rho flow * Np.power (n flow) 3 * Np.power (diameter g) 5
      + 0.000000000001.
Proof.
  intros Hrho Hn Hd. rewrite power_3, power_5.
  set (a := n flow) in *. set (d := diameter g) in *. clearbody a d.
  assert (0 <= a * a * a) by (repeat apply Qmult_le_0_compat; assumption).
  assert (0 <= (d * d) * (d * d) * d)
    by (repeat apply Qmult_le_0_compat; assumption).
  assert (0 <= rho flow * (a * a * a))
    by (apply Qmult_le_0_compat; assumption).
  assert (0 <= rho flow * (a * a * a) * ((d * d) * (d * d) * d))
    by (apply Qmult_le_0_compat; assumption).
  lra.
Qed.

Lemma gt_cases (x y : Q) :
  (gt x y = true /\ y < x) \/ (gt x y = false /\ x <= y).
Proof.
  unfold gt. destruct (Qle_bool_cases x y) as [[-> H]|[-> H]]; auto.
Qed.

Lemma lt_cases (x y : Q) :
  (lt x y = true /\ x < y) \/ (lt x y = false /\ y <= x).
Proof.
  unfold lt. destruct (Qle_bool_cases y x) as [[-> H]|[-> H]]; auto.
Qed.

(** X11. Round trip of the coefficient formulas: for a valid geometry and
    flow, a thrust chosen as [ct] times the thrust scale
    [rho n^2 D^4 + 1e-12] gives back the thrust coefficient [ct], and a
    power chosen as [cp] times [rho n^3 D^5 + 1e-12] gives back [cp]. *)
Theorem coefficients_round_trip (g : PropellerGeometry)
    (flow : FlowConditions) (ct cp : Q) :
  valid_geometry g -> valid_flow flow ->
  let c := compute_coefficients
             (ct * (rho flow * Np.power (n flow) 2 * Np.power (diameter g) 4
                    + 0.000000000001))
             (cp * (rho flow * Np.power (n flow) 3 * Np.power (diameter g) 5
                    + 0.000000000001))
             g flow in
  Coefficients.CT c == ct /\ Coefficients.CP c == cp.
Proof.
  intros (Hd & _) (_ & Hrpm & Hrho).
  pose proof (rev_per_sec_pos flow Hrpm) as Hn.
  assert (Ht := thrust_scale_pos g flow (Qlt_le_weak _ _ Hrho)).
  assert (Hp := power_scale_pos g flow (Qlt_le_weak _ _ Hrho)
                  (Qlt_le_weak _ _ Hn) (Qlt_le_weak _ _ Hd)).
  unfold compute_coefficients. cbn [Coefficients.CT Coefficients.CP].
  set (sT := rho flow * Np.power (n flow) 2 * Np.power (diameter g) 4
             + 0.000000000001) in *.
  set (sP := rho flow * Np.power (n flow) 3 * Np.power (diameter g) 5
             + 0.000000000001) in *.
  clearbody sT sP. split; field; lra.
Qed.

(** X12. For a valid geometry and flow and a thrust and power that are at
    least 0, the four coefficients [J], [CT], [CP] and [eta] are at least
    0. *)
Theorem coefficients_nonnegative (thrust power : Q) (g : PropellerGeometry)
    (flow : FlowConditions) :
  valid_geometry g -> valid_flow flow -> 0 <= thrust -> 0 <= power ->
  let c := compute_coefficients thrust power g flow in
  0 <= Coefficients.J c /\ 0 <= Coefficients.CT c /\
  0 <= Coefficients.CP c /\ 0 <= Coefficients.eta c.
Proof.
  intros (Hd & _) (Hv & Hrpm & Hrho) Ht Hp.
  pose proof (rev_per_sec_pos flow Hrpm) as Hn.
  assert (HsT := thrust_scale_pos g flow (Qlt_le_weak _ _ Hrho)).
  assert (HsP := power_scale_pos g flow (Qlt_le_weak _ _ Hrho)
                   (Qlt_le_weak _ _ Hn) (Qlt_le_weak _ _ Hd)).
  assert (HsJ : 0 < n flow * diameter g + 0.000000001) by nra.
  unfold compute_coefficients.
  cbn [Coefficients.J Coefficients.CT Coefficients.CP Coefficients.eta].
  assert (HJ : 0 <= velocity_inf flow / (n flow * diameter g + 0.000000001))
    by (apply Qle_shift_div_l; [exact HsJ|lra]).
  assert (HCT : 0 <= thrust /
                     (rho flow * Np.power (n flow) 2
                      * Np.power (diameter g) 4 + 0.000000000001))
    by (apply Qle_shift_div_l; [exact HsT|lra]).
  assert (HCP : 0 <= power /
                     (rho flow * Np.power (n flow) 3
                      * Np.power (diameter g) 5 + 0.000000000001))
    by (apply Qle_shift_div_l; [exact HsP|lra]).
  repeat (split; [assumption|]).
  destruct (gt_cases (power /
                      (rho flow * Np.power (n flow) 3
                       * Np.power (diameter g) 5 + 0.000000000001))
                     0.000000001) as [[-> H]|[-> H]]; [|lra].
  apply Qle_shift_div_l; [lra|].
  assert (0 <= velocity_inf flow / (n flow * diameter g + 0.000000001)
               * (thrust /
                  (rho flow * Np.power (n flow) 2
                   * Np.power (diameter g) 4 + 0.000000000001)))
    by (apply Qmult_le_0_compat; assumption).
  lra.
Qed.

(** X13. For a valid geometry and flow, the efficiency [eta] of
    [compute_coefficients] is 0 whenever the power is at most 0 (the guard
    on [CP]) or the freestream velocity is 0 (static operation). *)
Theorem eta_zero_without_power_or_speed (thrust power : Q)
    (g : PropellerGeometry) (flow : FlowConditions) :
  valid_geometry g -> valid_flow flow ->
  power <= 0 \/ velocity_inf flow == 0 ->
  Coefficients.eta (compute_coefficients thrust power g flow) == 0.
Proof.
  intros (Hd & _) (Hv & Hrpm & Hrho) Hcase.
  pose proof (rev_per_sec_pos flow Hrpm) as Hn.
  assert (HsP := power_scale_pos g flow (Qlt_le_weak _ _ Hrho)
                   (Qlt_le_weak _ _ Hn) (Qlt_le_weak _ _ Hd)).
  unfold compute_coefficients. cbn [Coefficients.eta].
  destruct (gt_cases (power /
                      (rho flow * Np.power (n flow) 3
                       * Np.power (diameter g) 5 + 0.000000000001))
                     0.000000001) as [[-> H]|[-> H]]; [|reflexivity].
  destruct Hcase as [Hp|Hv0].
  - exfalso.
    assert (power /
            (rho flow * Np.power (n flow) 3 * Np.power (diameter g) 5
             + 0.000000000001) <= 0)
      by (apply Qle_shift_div_r; [exact HsP|lra]).
    lra.
  - rewrite Hv0. unfold Qdiv. ring.
Qed.

(** X14. [compute_efficiency] never divides by a power below 1e-6: its
    value is at most 1e6 times [thrust * velocity] in absolute value, and it
    is 0 or has the sign of [thrust * velocity]. *)
Theorem efficiency_bounded (thrust power velocity : Q) :
  Qabs (compute_efficiency thrust power velocity)
  <= 1000000 * Qabs (thrust * velocity) /\
  0 <= compute_efficiency thrust power velocity * (thrust * velocity).
Proof.
  unfold compute_efficiency.
  destruct (lt_cases power 0.000001) as [[-> H]|[-> H]].
  - pose proof (Qabs_nonneg (thrust * velocity)).
    split; [change (Qabs 0) with 0; lra|lra].
  - assert (Hp : 0 < power) by lra.
    set (tv := thrust * velocity). split.
    + unfold Qdiv. rewrite Qabs_Qmult, Qabs_Qinv.
      rewrite (Qabs_pos power) by lra.
      pose proof (Qabs_nonneg tv) as Ha.
      change (Qabs tv * / power) with (Qabs tv / power).
      apply Qle_shift_div_r; [exact Hp|]. nra.
    + assert (E : tv / power * tv == tv * tv / power) by (field; lra).
      rewrite E. apply Qle_shift_div_l; [exact Hp|]. nra.
Qed.

(** ** The rpm sweep ([performance_sweep]) *)

Lemma setitem_app (done rest : Np.array) (x v : Q) :
  setitem (done ++ x :: rest) (length done) v = Some (done ++ v :: rest).
Proof.
  induction done as [|y done IH]; simpl; [reflexivity|].
  now rewrite IH.
Qed.

Lemma app_cons_assoc (done rest : Np.array) (v : Q) :
  done ++ v :: rest = (done ++ [v]) ++ rest.
Proof. now rewrite <- app_assoc. Qed.

Section SweepLoop.

Variable model : RadialActuatorDisk.
Variable coeffs : list Q.
Variables velocity rh : Q.
Variable perf : Q -> Performance.
Hypothesis perf_ok : forall r,
  compute_performance model coeffs
    {| velocity_inf := velocity; rpm := r; rho := rh |} = Some (perf r).

Lemma sweep_loop_fills (R : Np.array) (rpms : list Q) :
  forall (i : nat) (dt dp dj dc dq de : Np.array),
    length dt = i -> length dp = i -> length dj = i ->
    length dc = i -> length dq = i -> length de = i ->
    sweep_loop model coeffs velocity rh i rpms
      {| Sweep.rpm := R;
         Sweep.thrust := dt ++ repeat 0 (length rpms);
         Sweep.power := dp ++ repeat 0 (length rpms);
         Sweep.J := dj ++ repeat 0 (length rpms);
         Sweep.CT := dc ++ repeat 0 (length rpms);
         Sweep.CP := dq ++ repeat 0 (length rpms);
         Sweep.eta := de ++ repeat 0 (length rpms) |}
    = Some
      {| Sweep.rpm := R;
         Sweep.thrust := dt ++ map (fun r => thrust (perf r)) rpms;
         Sweep.power := dp ++ map (fun r => power (perf r)) rpms;
         Sweep.J := dj ++ map (fun r => Coefficients.J (point_coefficients model velocity rh perf r)) rpms;
         Sweep.CT := dc ++ map (fun r => Coefficients.CT (point_coefficients model velocity rh perf r)) rpms;
         Sweep.CP := dq ++ map (fun r => Coefficients.CP (point_coefficients model velocity rh perf r)) rpms;
         Sweep.eta := de ++ map (fun r => Coefficients.eta (point_coefficients model velocity rh perf r)) rpms |}.
Proof.
  induction rpms as [|r rpms IH]; intros i dt dp dj dc dq de Ht Hp Hj Hc Hq He.
  - reflexivity.
  - cbn [sweep_loop length repeat map]. rewrite perf_ok. cbn [obind].
    cbn [Sweep.thrust Sweep.power Sweep.J Sweep.CT Sweep.CP Sweep.eta
         Sweep.rpm].
    rewrite <- Ht at 1. rewrite setitem_app. cbn [obind].
    rewrite <- Hp at 1. rewrite setitem_app. cbn [obind].
    rewrite <- Hj at 1. rewrite setitem_app. cbn [obind].
    rewrite <- Hc at 1. rewrite setitem_app. cbn [obind].
    rewrite <- Hq at 1. rewrite setitem_app. cbn [obind].
    rewrite <- He at 1. rewrite setitem_app. cbn [obind].
    rewrite !(app_cons_assoc _ (repeat 0 (length rpms))).
    rewrite (IH (S i)) by (rewrite length_app; simpl; lia).
    rewrite <- !app_assoc. reflexivity.
Qed.

Lemma performance_sweep_columns (rpm_range : list Q) :
  performance_sweep model coeffs rpm_range velocity rh
  = Some
      {| Sweep.rpm := rpm_range;
         Sweep.thrust := map (fun r => thrust (perf r)) rpm_range;
         Sweep.power := map (fun r => power (perf r)) rpm_range;
         Sweep.J := map (fun r => Coefficients.J (point_coefficients model velocity rh perf r)) rpm_range;
         Sweep.CT := map (fun r => Coefficients.CT (point_coefficients model velocity rh perf r)) rpm_range;
         Sweep.CP := map (fun r => Coefficients.CP (point_coefficients model velocity rh perf r)) rpm_range;
         Sweep.eta := map (fun r => Coefficients.eta (point_coefficients model velocity rh perf r)) rpm_range |}.
Proof.
  unfold performance_sweep.
  exact (sweep_loop_fills rpm_range rpm_range 0 [] [] [] [] [] []
           eq_refl eq_refl eq_refl eq_refl eq_refl eq_refl).
Qed.

Lemma sweep_column_perf (rpm_range : list Q)
    (f : Performance * Coefficients.t -> Q) :
  sweep_column model coeffs rpm_range velocity rh f
  = map Some (map (fun r => f (perf r, point_coefficients model velocity rh perf r)) rpm_range).
Proof.
  unfold sweep_column, sweep_point. rewrite map_map.
  apply map_ext. intros r. now rewrite perf_ok.
Qed.

End SweepLoop.

(** X15. On a model with at least two stations, [performance_sweep]
    returns seven arrays as long as the rpm range: the range itself, and
    for each rpm of the range the thrust, power, [J], [CT], [CP] and [eta]
    that [compute_performance] and [compute_coefficients] give at that
    rpm. *)
Theorem sweep_tabulates_each_rpm (g : PropellerGeometry) (num : nat)
    (tl : Q) (coeffs : list Q) (rpm_range : list Q) (velocity rh : Q) :
  (2 <= num)%nat ->
  let column :=
    sweep_column (init g num tl) coeffs rpm_range velocity rh in
  exists res,
    performance_sweep (init g num tl) coeffs rpm_range velocity rh
    = Some res /\
    Sweep.rpm res = rpm_range /\
    map Some (Sweep.thrust res) = column (fun pc => thrust (fst pc)) /\
    map Some (Sweep.power res) = column (fun pc => power (fst pc)) /\
    map Some (Sweep.J res) = column (fun pc => Coefficients.J (snd pc)) /\
    map Some (Sweep.CT res) = column (fun pc => Coefficients.CT (snd pc)) /\
    map Some (Sweep.CP res) = column (fun pc => Coefficients.CP (snd pc)) /\
    map Some (Sweep.eta res) = column (fun pc => Coefficients.eta (snd pc)).
Proof.
  intros Hn column.
  destruct (performance_unfold (init g num tl) coeffs)
    as (l & dr & _ & _ & _ & _ & Hp).
  { now rewrite init_r_stations_length, init_r_norm_length. }
  { now rewrite init_r_stations_length. }
  set (perf := fun r => performance_of (init g num tl) l
                          {| velocity_inf := velocity; rpm := r; rho := rh |}
                          (nth 0 dr 0)).
  assert (Hperf : forall r,
             compute_performance (init g num tl) coeffs
               {| velocity_inf := velocity; rpm := r; rho := rh |}
             = Some (perf r)) by (intros r; apply Hp).
  eexists. split; [exact (performance_sweep_columns _ _ _ _ perf Hperf _)|].
  unfold column. rewrite !(sweep_column_perf _ _ _ _ perf Hperf).
  cbn [Sweep.rpm Sweep.thrust Sweep.power Sweep.J Sweep.CT Sweep.CP
       Sweep.eta fst snd].
  repeat split; reflexivity.
Qed.

Lemma map_const (c : Q) (l : list Q) :
  map (fun _ => c) l = repeat c (length l).
Proof. induction l; simpl; congruence. Qed.

(** X16. On a model with at least two stations, the thrust column of a
    sweep is one value repeated: sweeping the rpm never changes the
    thrust. *)
Theorem sweep_thrust_is_constant (g : PropellerGeometry) (num : nat)
    (tl : Q) (coeffs : list Q) (rpm_range : list Q) (velocity rh : Q) :
  (2 <= num)%nat ->
  exists res t,
    performance_sweep (init g num tl) coeffs rpm_range velocity rh
    = Some res /\
    Sweep.thrust res = repeat t (length rpm_range).
Proof.
  intros Hn.
  destruct (performance_unfold (init g num tl) coeffs)
    as (l & dr & _ & _ & _ & _ & Hp).
  { now rewrite init_r_stations_length, init_r_norm_length. }
  { now rewrite init_r_stations_length. }
  set (perf := fun r => performance_of (init g num tl) l
                          {| velocity_inf := velocity; rpm := r; rho := rh |}
                          (nth 0 dr 0)).
  assert (Hperf : forall r,
             compute_performance (init g num tl) coeffs
               {| velocity_inf := velocity; rpm := r; rho := rh |}
             = Some (perf r)) by (intros r; apply Hp).
  eexists. exists (Np.trapz l (nth 0 dr 0)).
  split; [exact (performance_sweep_columns _ _ _ _ perf Hperf _)|].
  cbn [Sweep.thrust]. unfold perf. cbn [performance_of thrust].
  apply map_const.
Qed.

(** X17. On a model with fewer than two stations, [performance_sweep]
    raises at the first rpm; only the empty range returns (seven empty
    arrays). *)
Theorem sweep_needs_two_stations (g : PropellerGeometry) (num : nat)
    (tl : Q) (coeffs : list Q) (rpm_range : list Q) (velocity rh : Q) :
  (num < 2)%nat ->
  performance_sweep (init g num tl) coeffs rpm_range velocity rh
  = match rpm_range with
    | [] => Some {| Sweep.rpm := []; Sweep.thrust := []; Sweep.power := [];
                    Sweep.J := []; Sweep.CT := []; Sweep.CP := [];
                    Sweep.eta := [] |}
    | _ :: _ => None
    end.
Proof.
  intros Hn. destruct rpm_range as [|r rest]; [reflexivity|].
  unfold performance_sweep. cbn [sweep_loop].
  rewrite performance_none; [reflexivity|].
  now rewrite init_r_stations_length.
Qed.

(** ** Input validation and presets ([utils.py]) *)

Lemma andb_Qle (a b c d : Q) :
  negb (Qle_bool a b && Qle_bool c d) = false <-> a <= b /\ c <= d.
Proof.
  rewrite negb_false_iff, andb_true_iff, !Qle_bool_iff. reflexivity.
Qed.

(** X18. [validate_inputs] returns without raising exactly when the
    diameter is in [0.05, 2], the rpm in [100, 20000] and the velocity in
    [0, 100]. *)
Theorem validate_inputs_accepts_exactly_the_ranges (diameter rpm velocity : Q) :
  validate_inputs diameter rpm velocity = Returned tt <->
  (0.05 <= diameter /\ diameter <= 2) /\
  (100 <= rpm /\ rpm <= 20000) /\
  (0 <= velocity /\ velocity <= 100).
Proof.
  unfold validate_inputs. rewrite <- !andb_Qle.
  destruct (negb (Qle_bool 0.05 diameter && Qle_bool diameter 2));
    destruct (negb (Qle_bool 100 rpm && Qle_bool rpm 20000));
    destruct (negb (Qle_bool 0 velocity && Qle_bool velocity 100));
    split; try discriminate; try tauto;
    intros (A & B & C); discriminate.
Qed.

(** X19. Inputs that [validate_inputs] accepts give, with the constructors'
    defaults (two blades, hub ratio 0.2, density 1.225), a valid geometry
    and a valid flow. *)
Theorem validated_inputs_are_valid (diameter rpm velocity : Q) :
  validate_inputs diameter rpm velocity = Returned tt ->
  valid_geometry {| diameter := diameter; num_blades := 2;
                    hub_radius_ratio := 0.2 |} /\
  valid_flow {| velocity_inf := velocity; rpm := rpm; rho := 1.225 |}.
Proof.
  unfold validate_inputs.
  destruct (negb (Qle_bool 0.05 diameter && Qle_bool diameter 2)) eqn:Ed;
    [discriminate|].
  destruct (negb (Qle_bool 100 rpm && Qle_bool rpm 20000)) eqn:Er;
    [discriminate|].
  destruct (negb (Qle_bool 0 velocity && Qle_bool velocity 100)) eqn:Ev;
    [discriminate|].
  intros _. apply andb_Qle in Ed, Er, Ev.
  unfold valid_geometry, valid_flow; cbn.
  repeat split; try lra; try lia.
Qed.

(** X20. [default_loading_coeffs] returns a vector of five coefficients for
    each of the four names ["uniform"], ["linear"], ["elliptic"] and
    ["quadratic"], and raises [ValueError] for every other name. *)
Theorem default_loading_coeffs_known_names (profile : string) :
  match default_loading_coeffs profile with
  | Returned c =>
      In profile ["uniform"; "linear"; "elliptic"; "quadratic"]%string /\
      In (profile, c) profiles /\ length c = 5%nat
  | Raised e =>
      ~ In profile ["uniform"; "linear"; "elliptic"; "quadratic"]%string /\
      e = ValueError
            ("Unknown profile: " ++ profile
             ++ ". Choose from ['uniform', 'linear', 'elliptic', 'quadratic']")
  end.
Proof.
  unfold default_loading_coeffs, profiles. cbn [lookup].
  destruct (String.eqb_spec profile "uniform") as [->|H1];
    [cbn; intuition|].
  destruct (String.eqb_spec profile "linear") as [->|H2];
    [cbn; intuition|].
  destruct (String.eqb_spec profile "elliptic") as [->|H3];
    [cbn; intuition|].
  destruct (String.eqb_spec profile "quadratic") as [->|H4];
    [cbn; intuition|].
  split; [|reflexivity]. cbn. intuition congruence.
Qed.

(** ** The presets on the model *)

Lemma power_0 (x : Q) : Np.power x 0 == 1.
Proof. reflexivity. Qed.
Lemma power_1 (x : Q) : Np.power x 1 == x.
Proof. unfold Np.power. simpl. ring. Qed.

Lemma polynomial_5 (c0 c1 c2 c3 c4 x : Q) :
  polynomial [c0; c1; c2; c3; c4] 0 x
  == c0 + c1 * x + c2 * (x * x) + c3 * (x * x * x)
     + c4 * ((x * x) * (x * x)).
Proof.
  cbn [polynomial].
  rewrite power_0, power_1, power_2, power_3, power_4. ring.
Qed.

Lemma default_loading_coeffs_In (profile : string) (c : list Q) :
  default_loading_coeffs profile = Returned c -> In (profile, c) profiles.
Proof.
  unfold default_loading_coeffs, profiles. cbn [lookup].
  destruct (String.eqb_spec profile "uniform") as [->|H1];
    [intros [= <-]; cbn; tauto|].
  destruct (String.eqb_spec profile "linear") as [->|H2];
    [intros [= <-]; cbn; tauto|].
  destruct (String.eqb_spec profile "elliptic") as [->|H3];
    [intros [= <-]; cbn; tauto|].
  destruct (String.eqb_spec profile "quadratic") as [->|H4];
    [intros [= <-]; cbn; tauto|].
  discriminate.
Qed.

Lemma preset_polynomial_pos (profile : string) (c : list Q) (x : Q) :
  In (profile, c) profiles -> 0 < x -> x <= 1 -> 0 < polynomial c 0 x.
Proof.
  intros Hin Hx0 Hx1.
  assert (Hxx : 0 <= x * x) by nra.
  assert (Hx3 : x * x * x <= x * x) by nra.
  unfold profiles in Hin. cbn [In] in Hin.
  destruct Hin as [E|[E|[E|[E|[]]]]]; injection E as _ <-;
    rewrite polynomial_5; nra.
Qed.

Lemma clip_lower (x lo hi : Q) : lo <= hi -> lo <= Np.clip x lo hi.
Proof. intros H. unfold Np.clip, Np.minimum, Np.maximum. qcases; lra. Qed.

Lemma Forall2_Forall_r (P R : Q -> Prop) (S : Q -> Q -> Prop)
    (a b : Np.array) :
  (forall x v, P x -> S x v -> R v) ->
  Forall2 S a b -> Forall P a -> Forall R b.
Proof.
  intros H H2; induction H2 as [|x v a b Hxv _ IH]; intros Ha;
    constructor; inversion Ha; subst; eauto.
Qed.

Lemma preset_loading_pos (profile : string) (c : list Q)
    (g : PropellerGeometry) (num : nat) (tl : Q) :
  default_loading_coeffs profile = Returned c ->
  valid_geometry g -> 0 < tl -> tl <= 1 ->
  exists l,
    compute_loading_distribution (init g num tl) c = Some l /\
    length l = num /\ Forall (fun v => 0 < v) l.
Proof.
  intros Hc Hg Htl0 Htl1. apply default_loading_coeffs_In in Hc.
  destruct (loading_elementwise g num tl c) as (l & Hl & Hall).
  exists l. split; [exact Hl|]. split.
  - apply Forall2_length in Hall. now rewrite init_r_norm_length in Hall.
  - eapply Forall2_Forall_r;
      [|exact Hall|exact (proj2 (init_radii_range g num tl Hg))].
    intros x v (Hx0 & _ & Hx1) Hv. cbv beta in Hv.
    pose proof (preset_polynomial_pos profile c x Hc Hx0 Hx1) as HP.
    pose proof (clip_lower (taper_raw tl x) tl 1 Htl1) as Hclip.
    set (P := polynomial c 0 x) in *. set (t := Np.clip _ tl 1) in *.
    clearbody P t. rewrite Hv. unfold Np.maximum. qcases; nra.
Qed.

(** X21. For each preset of [default_loading_coeffs], a valid geometry and
    a tip-loss factor in (0, 1], the loading is strictly positive at every
    station: the clamp at 0 is never active. *)
Theorem preset_loading_positive (profile : string) (c : list Q)
    (g : PropellerGeometry) (num : nat) (tl : Q) :
  default_loading_coeffs profile = Returned c ->
  valid_geometry g -> 0 < tl -> tl <= 1 ->
  exists l,
    compute_loading_distribution (init g num tl) c = Some l /\
    length l = num /\ Forall (fun v => 0 < v) l.
Proof. apply preset_loading_pos. Qed.

Lemma trapz_pos (y : Np.array) (d : Q) :
  Forall (fun x => 0 < x) y -> (2 <= length y)%nat -> 0 < d ->
  0 < Np.trapz y d.
Proof.
  intros Hy Hlen Hd. destruct y as [|y0 [|y1 ys]]; simpl in Hlen; try lia.
  rewrite trapz_step.
  inversion Hy as [|? ? H0 Hy']; subst. inversion Hy' as [|? ? H1 _]; subst.
  assert (Hrest : 0 <= Np.trapz (y1 :: ys) d).
  { apply trapz_nonneg; [|lra].
    eapply Forall_impl; [|exact Hy']. intros; cbv beta in *; lra. }
  assert (E : d * (y1 + y0) / 2 == d * (y1 + y0) * (1 # 2)) by field.
  rewrite E. nra.
Qed.

Lemma preset_performance_pos (profile : string) (c : list Q)
    (g : PropellerGeometry) (num : nat) (tl : Q) :
  default_loading_coeffs profile = Returned c ->
  valid_geometry g -> 0 < tl -> tl <= 1 -> (2 <= num)%nat ->
  exists l d,
    (forall flow,
        compute_performance (init g num tl) c flow
        = Some (performance_of (init g num tl) l flow d)) /\
    (forall flow, 0 < thrust (performance_of (init g num tl) l flow d)) /\
    (forall flow, 0 < torque (performance_of (init g num tl) l flow d)).
Proof.
  intros Hc Hg Htl0 Htl1 Hn.
  destruct (preset_loading_pos profile c g num tl Hc Hg Htl0 Htl1)
    as (l & Hl & Hlen & Hpos).
  destruct (performance_unfold (init g num tl) c)
    as (l' & dr & Hl' & _ & _ & Hdr0 & Hp).
  { now rewrite init_r_stations_length, init_r_norm_length. }
  { now rewrite init_r_stations_length. }
  rewrite Hl in Hl'. injection Hl' as <-.
  pose proof (init_grid_spacing_pos g num tl Hg Hn) as Hd.
  rewrite <- Hdr0 in Hd.
  exists l, (nth 0 dr 0). split; [intros flow; apply Hp|].
  split; intros flow; cbn [performance_of thrust torque].
  - apply trapz_pos; auto. lia.
  - apply trapz_pos; auto.
    + apply (zip_with_Forall Qmult (fun x => 0 < x) (fun r => 0 < r)).
      * intros x y Hx Hy. nra.
      * apply Forall_map. eapply Forall_impl; [|exact Hpos].
        intros x Hx. cbv beta in *. unfold swirl_factor. lra.
      * now apply init_r_stations_pos.
    + rewrite zip_with_length; rewrite length_map;
        rewrite ?init_r_stations_length; lia.
Qed.

(** X22. For each preset, a valid geometry with at least two stations and
    a tip-loss factor in (0, 1], [compute_performance] returns a strictly
    positive thrust and torque, whatever the flow. *)
Theorem preset_thrust_positive (profile : string) (c : list Q)
    (g : PropellerGeometry) (num : nat) (tl : Q) (flow : FlowConditions) :
  default_loading_coeffs profile = Returned c ->
  valid_geometry g -> 0 < tl -> tl <= 1 -> (2 <= num)%nat ->
  exists p,
    compute_performance (init g num tl) c flow = Some p /\
    0 < thrust p /\ 0 < torque p.
Proof.
  intros Hc Hg Htl0 Htl1 Hn.
  destruct (preset_performance_pos profile c g num tl Hc Hg Htl0 Htl1 Hn)
    as (l & d & Hp & Ht & Hq).
  eexists. split; [apply Hp|]. split; [apply Ht|apply Hq].
Qed.

(** X23. For each preset, a valid geometry with at least two stations and
    a tip-loss factor in (0, 1], the power grows strictly with the rpm at
    fixed freestream velocity and density. *)
Theorem preset_power_increases_with_rpm (profile : string) (c : list Q)
    (g : PropellerGeometry) (num : nat) (tl : Q) (v rh r1 r2 : Q) :
  default_loading_coeffs profile = Returned c ->
  valid_geometry g -> 0 < tl -> tl <= 1 -> (2 <= num)%nat -> r1 < r2 ->
  exists p1 p2,
    compute_performance (init g num tl) c
      {| velocity_inf := v; rpm := r1; rho := rh |} = Some p1 /\
    compute_performance (init g num tl) c
      {| velocity_inf := v; rpm := r2; rho := rh |} = Some p2 /\
    thrust p1 = thrust p2 /\ power p1 < power p2.
Proof.
  intros Hc Hg Htl0 Htl1 Hn Hr.
  destruct (preset_performance_pos profile c g num tl Hc Hg Htl0 Htl1 Hn)
    as (l & d & Hp & _ & Hq).
  eexists. eexists. split; [apply Hp|]. split; [apply Hp|].
  split; [reflexivity|].
  apply power_increases_with_rpm; [apply Hq|exact Hr].
Qed.

(** ** Error metrics ([compute_error_metrics]) *)

Lemma square_nonneg (e : Q) : 0 <= Np.power e 2.
Proof. rewrite power_2. nra. Qed.

Lemma squares_sum_nonneg (a : Np.array) :
  0 <= Np.sum (map (fun e => Np.power e 2) a).
Proof.
  apply sum_nonneg, Forall_map, Forall_forall. intros e _.
  apply square_nonneg.
Qed.

Lemma length_pos_inject (a : Np.array) :
  a <> [] -> 0 < inject_Z (Z.of_nat (length a)).
Proof.
  intros H. destruct a; [congruence|]. unfold Qlt; simpl. lia.
Qed.

(** X24. For two arrays of the same, non-zero length,
    [compute_error_metrics] returns a mean absolute error of at least 0 and
    a coefficient of determination of at most 1. *)
Theorem error_metrics_ranges (sqrt : Q -> Q) (y_true y_pred : Np.array) :
  length y_true = length y_pred -> y_true <> [] ->
  exists rmse mae r2,
    compute_error_metrics sqrt y_true y_pred = Some (rmse, mae, r2) /\
    0 <= mae /\ r2 <= 1.
Proof.
  intros Hlen Hne. unfold compute_error_metrics.
  rewrite binop_same by exact Hlen. cbn [obind].
  set (errors := Np.zip_with Qminus y_true y_pred).
  assert (Herr : errors <> []).
  { intros E. apply (f_equal (@length Q)) in E. unfold errors in E.
    rewrite zip_with_length in E by exact Hlen.
    destruct y_true; [congruence|discriminate]. }
  do 3 eexists. split; [reflexivity|]. split.
  - unfold mean. rewrite length_map.
    apply Qle_shift_div_l; [now apply length_pos_inject|].
    assert (0 <= Np.sum (map Qabs errors)).
    { apply sum_nonneg, Forall_map, Forall_forall. intros e _.
      apply Qabs_nonneg. }
    lra.
  - pose proof (squares_sum_nonneg errors) as Hres.
    pose proof (squares_sum_nonneg
                  (map (fun y => y - mean y_true) y_true)) as Htot.
    set (ss_res := Np.sum (map (fun e => Np.power e 2) errors)) in *.
    set (ss_tot := Np.sum (map (fun d => Np.power d 2)
                             (map (fun y => y - mean y_true) y_true))) in *.
    clearbody ss_res ss_tot.
    assert (0 <= ss_res / (ss_tot + 0.000000000001))
      by (apply Qle_shift_div_l; lra).
    lra.
Qed.

Lemma zip_minus_self_zero (y : Np.array) :
  all_zero (Np.zip_with Qminus y y).
Proof.
  induction y as [|a y IH]; simpl; constructor; auto. ring.
Qed.

(** X25. A perfect prediction ([y_pred] equal to a non-empty [y_true])
    gives a mean absolute error of 0, a coefficient of determination of 1,
    and a root-mean-square error that is [sqrt] of 0. *)
Theorem error_metrics_perfect_prediction (sqrt : Q -> Q) (y : Np.array) :
  y <> [] ->
  exists m mae r2,
    compute_error_metrics sqrt y y = Some (sqrt m, mae, r2) /\
    m == 0 /\ mae == 0 /\ r2 == 1.
Proof.
  intros Hne. unfold compute_error_metrics.
  rewrite binop_same by reflexivity. cbn [obind].
  pose proof (zip_minus_self_zero y) as Hz.
  set (errors := Np.zip_with Qminus y y) in *. clearbody errors.
  assert (Hsq : Np.sum (map (fun e => Np.power e 2) errors) == 0).
  { apply sum_zero, Forall_map. eapply Forall_impl; [|exact Hz].
    intros e He. cbv beta in *. rewrite power_2, He. ring. }
  assert (Hab : Np.sum (map Qabs errors) == 0).
  { apply sum_zero, Forall_map. eapply Forall_impl; [|exact Hz].
    intros e He. cbv beta in *. rewrite He. reflexivity. }
  do 3 eexists. split; [reflexivity|].
  unfold mean. rewrite Hsq, Hab. unfold Qdiv. repeat split; ring.
Qed.

(** ** The optimizer's history and termination *)

Section OptimizerInvariants.

Variable model : RadialActuatorDisk.
Variable flow : FlowConditions.
Variable objective : string.

Lemma objective_function_run (coeffs : list Q) (s : OptState) :
  objective_function model flow objective coeffs s
  = match compute_performance model coeffs flow with
    | None => (Raised (ValueError "numpy"), logged s coeffs)
    | Some p =>
        if String.eqb objective "min_power"
        then (Returned (power p), recorded s coeffs p [power p])
        else if String.eqb objective "max_thrust"
        then (Returned (- thrust p), recorded s coeffs p [- thrust p])
        else (Raised (ValueError ("Unknown objective: " ++ objective)),
              recorded s coeffs p [])
    end.
Proof.
  unfold objective_function, bind. rewrite call_model_run.
  destruct (compute_performance model coeffs flow) as [p|]; [|reflexivity].
  cbn [modify]. unfold recorded.
  destruct (String.eqb objective "min_power"); [reflexivity|].
  destruct (String.eqb objective "max_thrust"); [reflexivity|].
  cbn [raise]. now rewrite app_nil_r.
Qed.

Lemma constraint_function_run (c : constraint) (coeffs : list Q)
    (s : OptState) :
  snd (constraint_function model flow c coeffs s) = logged s coeffs.
Proof.
  unfold constraint_function, bind. rewrite call_model_run.
  destruct (compute_performance model coeffs flow) as [p|]; [|reflexivity].
  destruct c; reflexivity.
Qed.

Variable Inv : OptState -> Prop.
Hypothesis Inv_logged : forall s c, Inv s -> Inv (logged s c).
Hypothesis Inv_objective : forall s c,
  Inv s -> Inv (snd (objective_function model flow objective c s)).

Lemma run_keeps (constraints : list constraint) (prog : Solver) :
  forall s, Inv s ->
            Inv (snd (run model flow objective constraints prog s)).
Proof.
  induction prog as [x k IH|j x k IH|res|e]; intros s Hs; cbn [run].
  - unfold bind. pose proof (Inv_objective s x Hs) as Ho.
    destruct (objective_function model flow objective x s) as [[v|e] s'];
      [apply IH; exact Ho|exact Ho].
  - destruct (nth_error constraints j) as [c|]; [|exact Hs].
    unfold bind. pose proof (constraint_function_run c x s) as Hc.
    destruct (constraint_function model flow c x s) as [[v|e] s'];
      cbn [snd] in Hc; subst s'; [apply IH|]; now apply Inv_logged.
  - exact Hs.
  - exact Hs.
Qed.

Lemma optimize_loading_keeps (minimize : minimizer)
    (random_uniform : nat -> list Q)
    (thrust_target power_limit : option Q)
    (initial_guess : option (list Q)) (n_poly : nat) (bounds : Q * Q)
    (method : string) :
  Inv initial_state ->
  Inv (snd (optimize_loading model flow objective minimize random_uniform
              thrust_target power_limit initial_guess n_poly bounds method)).
Proof.
  intros H0. unfold optimize_loading, bind.
  match goal with
  | |- context [run model flow objective ?c ?p initial_state] =>
      pose proof (run_keeps c p initial_state H0) as Hr;
      destruct (run model flow objective c p initial_state) as [[res|e] s1]
  end; cbn [snd] in *; [|exact Hr].
  rewrite call_model_run.
  destruct (compute_performance model (OptimizeResult.x res) flow);
    cbn [get ret snd]; now apply Inv_logged.
Qed.

End OptimizerInvariants.

(** X26. With a recognized objective kind, whatever the solver does and
    however the run ends, the history stays in step: the four lists have
    one entry per objective evaluation and the iteration indices are
    0, 1, 2, ... *)
Theorem history_stays_in_step (model : RadialActuatorDisk)
    (flow : FlowConditions) (objective : string) (minimize : minimizer)
    (random_uniform : nat -> list Q)
    (thrust_target power_limit : option Q)
    (initial_guess : option (list Q)) (n_poly : nat) (bounds : Q * Q)
    (method : string) :
  recognized objective ->
  history_in_step
    (snd (optimize_loading model flow objective minimize random_uniform
            thrust_target power_limit initial_guess n_poly bounds method)).
Proof.
  intros Hrec. apply optimize_loading_keeps.
  - intros s c H. exact H.
  - intros s c (Hi & Ho & Ht & Hp). rewrite objective_function_run.
    destruct (compute_performance model c flow) as [p|];
      [|split; [exact Hi|repeat split; assumption]].
    assert (Hstep : forall v : Q,
               history_in_step (recorded s c p [v])).
    { intros v. unfold history_in_step, recorded; cbn.
      rewrite !length_app, Hi, Ho, Ht, Hp, Nat.add_1_r, seq_S. cbn.
      repeat split; lia. }
    destruct Hrec as [-> | ->]; cbn; apply Hstep.
  - repeat split.
Qed.

(** X27. However the run ends and whatever the objective kind, the
    objective entries of the history are determined by its other lists:
    they are the logged powers for ["min_power"], the negated logged
    thrusts for ["max_thrust"], and there are none for any other kind. *)
Theorem objective_entries_follow_kind (model : RadialActuatorDisk)
    (flow : FlowConditions) (objective : string) (minimize : minimizer)
    (random_uniform : nat -> list Q)
    (thrust_target power_limit : option Q)
    (initial_guess : option (list Q)) (n_poly : nat) (bounds : Q * Q)
    (method : string) :
  let s := snd (optimize_loading model flow objective minimize
                  random_uniform thrust_target power_limit initial_guess
                  n_poly bounds method) in
  History.objective (history s) = objective_log objective (history s).
Proof.
  apply (optimize_loading_keeps model flow objective
           (fun s => History.objective (history s)
                     = objective_log objective (history s))).
  - intros s c H. exact H.
  - intros s c H. rewrite objective_function_run.
    destruct (compute_performance model c flow) as [p|]; [|exact H].
    unfold objective_log in *.
    destruct (String.eqb objective "min_power"); cbn;
      [now rewrite H|].
    destruct (String.eqb objective "max_thrust"); cbn;
      [now rewrite H, map_app|].
    now rewrite app_nil_r.
  - unfold objective_log.
    destruct (String.eqb objective "min_power"); [reflexivity|].
    destruct (String.eqb objective "max_thrust"); reflexivity.
Qed.

Lemma run_returns (model : RadialActuatorDisk) (flow : FlowConditions)
    (objective : string) (constraints : list constraint) (prog : Solver) :
  recognized objective ->
  (forall x, compute_performance model x flow <> None) ->
  answers (length constraints) prog ->
  forall s, exists res s',
    run model flow objective constraints prog s = (Returned res, s').
Proof.
  intros Hrec Hmodel Hans.
  induction Hans as [x k _ IH|j x k Hj _ IH|res]; intros s; cbn [run].
  - unfold bind. rewrite objective_function_run.
    destruct (compute_performance model x flow) as [p|] eqn:Hp;
      [|now apply Hmodel in Hp].
    destruct Hrec as [-> | ->]; cbn; apply IH.
  - destruct (nth_error constraints j) as [c|] eqn:Hc;
      [|apply nth_error_None in Hc; lia].
    unfold bind, constraint_function. unfold bind at 1.
    rewrite call_model_run.
    destruct (compute_performance model x flow) as [p|] eqn:Hp;
      [|now apply Hmodel in Hp].
    destruct c; cbn [ret]; apply IH.
  - unfold ret. eauto.
Qed.

(** X28. With a recognized objective kind and a model that evaluates at
    every point, [optimize_loading] returns a result whenever the solver
    run itself neither raises nor asks for an unregistered constraint,
    whether the solver reports success or not; the history of the result
    is the one accumulated during the run. *)
Theorem optimize_loading_returns (model : RadialActuatorDisk)
    (flow : FlowConditions) (objective : string) (minimize : minimizer)
    (random_uniform : nat -> list Q)
    (thrust_target power_limit : option Q)
    (initial_guess : option (list Q)) (n_poly : nat) (bounds : Q * Q)
    (method : string) :
  recognized objective ->
  (forall x, compute_performance model x flow <> None) ->
  answers (length (build_constraints objective thrust_target power_limit))
    (minimize
       (match initial_guess with
        | None => random_uniform n_poly
        | Some x0 => x0
        end)
       method
       {| lb := repeat (fst bounds) n_poly; ub := repeat (snd bounds) n_poly |}
       (length (build_constraints objective thrust_target power_limit))
       200%nat) ->
  exists r s,
    optimize_loading model flow objective minimize random_uniform
      thrust_target power_limit initial_guess n_poly bounds method
    = (Returned r, s) /\
    OptimizationResult.history r = history s.
Proof.
  intros Hrec Hmodel Hans. unfold optimize_loading, bind.
  destruct (run_returns model flow objective _ _ Hrec Hmodel Hans
              initial_state) as (res & s1 & ->).
  rewrite call_model_run.
  destruct (compute_performance model (OptimizeResult.x res) flow)
    as [p|] eqn:Hp; [|now apply Hmodel in Hp].
  cbn [get ret]. eexists. eexists. split; reflexivity.
Qed.

(** ** The further statements at concrete inputs *)

Lemma flow_10_5000_valid : valid_flow (flow_at 10 5000).
Proof. repeat split; vm_compute; discriminate. Defined.

Lemma two_stations : (2 <= 2)%nat.
Proof. apply le_n. Defined.

Lemma tip_loss_095 : 0 < 0.95 /\ 0.95 <= 1.
Proof. split; [reflexivity|vm_compute; discriminate]. Defined.

Lemma grid_from_hub_to_tip_increasing_witness :
  (valid_geometry geom_025 /\ (2 <= 2)%nat) /\
  increasing (r_stations model_2).
Proof.
  split; [split; [exact geom_025_valid|exact two_stations]|].
  exact (proj2 (proj2 (proj2
    (grid_from_hub_to_tip_increasing geom_025 2 0.95
       geom_025_valid two_stations)))).
Defined.

Lemma normalized_radii_in_range_witness :
  valid_geometry geom_025 /\
  Forall (fun x => 0 < x /\ hub_radius_ratio geom_025 <= x /\ x <= 1)
         (r_norm model_2).
Proof.
  split; [exact geom_025_valid|].
  exact (proj2 (normalized_radii_in_range geom_025 2 0.95 geom_025_valid)).
Defined.

Lemma tip_station_taper_witness :
  (valid_geometry geom_025 /\ (2 <= 2)%nat /\ 0.95 <= 1) /\
  last (taper model_2) 0 == 0.95.
Proof.
  split; [split; [exact geom_025_valid|
                  split; [exact two_stations|exact (proj2 tip_loss_095)]]|].
  exact (proj2 (tip_station_taper geom_025 2 0.95 geom_025_valid
                  two_stations (proj2 tip_loss_095))).
Defined.


Lemma power_affine_in_rpm_witness :
  (2 <= 2)%nat /\
  exists p1 p2,
    compute_performance model_2 elliptic (flow_at 10 2000) = Some p1 /\
    compute_performance model_2 elliptic (flow_at 10 4000) = Some p2 /\
    power p2 - power p1
    == torque p1 * (omega (flow_at 10 4000) - omega (flow_at 10 2000)).
Proof.
  split; [exact two_stations|].
  destruct (power_affine_in_rpm geom_025 2 0.95 elliptic 10 1.225 2000 4000
              two_stations) as (p1 & p2 & H1 & H2 & _ & _ & _ & _ & H).
  exists p1, p2. split; [exact H1|]. split; [exact H2|exact H].
Defined.

Lemma power_monotone_in_rpm_witness :
  (valid_geometry geom_025 /\ (2 <= 2)%nat /\ 2000 <= 4000) /\
  exists p1 p2,
    compute_performance model_2 elliptic (flow_at 10 2000) = Some p1 /\
    compute_performance model_2 elliptic (flow_at 10 4000) = Some p2 /\
    power p1 <= power p2.
Proof.
  assert (Hr : 2000 <= 4000) by (vm_compute; discriminate).
  split; [split; [exact geom_025_valid|
                  split; [exact two_stations|exact Hr]]|].
  exact (power_monotone_in_rpm geom_025 2 0.95 elliptic 10 1.225 2000 4000
           geom_025_valid two_stations Hr).
Defined.


Lemma performance_needs_two_stations_witness :
  (1 < 2)%nat /\
  compute_performance (init geom_025 1 0.95) elliptic (flow_at 10 5000)
  = None.
Proof.
  assert (H : (1 < 2)%nat) by apply le_n.
  split; [exact H|].
  exact (proj1 (performance_needs_two_stations geom_025 1 0.95 elliptic
                  (flow_at 10 5000) H)).
Defined.

Lemma coefficients_round_trip_witness :
  (valid_geometry geom_025 /\ valid_flow (flow_at 10 5000)) /\
  Coefficients.CT
    (compute_coefficients
       (0.1 * (rho (flow_at 10 5000) * Np.power (n (flow_at 10 5000)) 2
               * Np.power (diameter geom_025) 4 + 0.000000000001))
       (0.05 * (rho (flow_at 10 5000) * Np.power (n (flow_at 10 5000)) 3
                * Np.power (diameter geom_025) 5 + 0.000000000001))
       geom_025 (flow_at 10 5000)) == 0.1.
Proof.
  split; [split; [exact geom_025_valid|exact flow_10_5000_valid]|].
  exact (proj1 (coefficients_round_trip geom_025 (flow_at 10 5000) 0.1 0.05
                  geom_025_valid flow_10_5000_valid)).
Defined.

Lemma coefficients_nonnegative_witness :
  (valid_geometry geom_025 /\ valid_flow (flow_at 10 5000) /\
   0 <= 8.5 /\ 0 <= 150) /\
  0 <= Coefficients.eta
         (compute_coefficients 8.5 150 geom_025 (flow_at 10 5000)).
Proof.
  assert (Ht : 0 <= 8.5) by (vm_compute; discriminate).
  assert (Hp : 0 <= 150) by (vm_compute; discriminate).
  split; [split; [exact geom_025_valid|
                  split; [exact flow_10_5000_valid|
                          split; [exact Ht|exact Hp]]]|].
  exact (proj2 (proj2 (proj2
    (coefficients_nonnegative 8.5 150 geom_025 (flow_at 10 5000)
       geom_025_valid flow_10_5000_valid Ht Hp)))).
Defined.

Lemma eta_zero_without_power_or_speed_witness :
  (valid_geometry geom_025 /\ valid_flow (flow_at 0 5000) /\
   (150 <= 0 \/ velocity_inf (flow_at 0 5000) == 0)) /\
  Coefficients.eta (compute_coefficients 8.5 150 geom_025 (flow_at 0 5000))
  == 0.
Proof.
  assert (Hf : valid_flow (flow_at 0 5000))
    by (repeat split; vm_compute; discriminate).
  assert (Hc : 150 <= 0 \/ velocity_inf (flow_at 0 5000) == 0)
    by (right; reflexivity).
  split; [split; [exact geom_025_valid|split; [exact Hf|exact Hc]]|].
  exact (eta_zero_without_power_or_speed 8.5 150 geom_025 (flow_at 0 5000)
           geom_025_valid Hf Hc).
Defined.

Lemma sweep_tabulates_each_rpm_witness :
  (2 <= 2)%nat /\
  exists res,
    performance_sweep model_2 elliptic [2000; 4000] 10 1.225 = Some res /\
    Sweep.rpm res = [2000; 4000] /\
    map Some (Sweep.power res)
    = sweep_column model_2 elliptic [2000; 4000] 10 1.225
        (fun pc => power (fst pc)).
Proof.
  split; [exact two_stations|].
  destruct (sweep_tabulates_each_rpm geom_025 2 0.95 elliptic [2000; 4000]
              10 1.225 two_stations) as (res & H & Hr & _ & Hp & _).
  exists res. split; [exact H|]. split; [exact Hr|exact Hp].
Defined.

Lemma sweep_thrust_is_constant_witness :
  (2 <= 2)%nat /\
  exists res t,
    performance_sweep model_2 elliptic [2000; 4000; 6000] 10 1.225
    = Some res /\
    Sweep.thrust res = [t; t; t].
Proof.
  split; [exact two_stations|].
  exact (sweep_thrust_is_constant geom_025 2 0.95 elliptic
           [2000; 4000; 6000] 10 1.225 two_stations).
Defined.

Lemma sweep_needs_two_stations_witness :
  (1 < 2)%nat /\
  performance_sweep (init geom_025 1 0.95) elliptic [2000; 4000] 10 1.225
  = None.
Proof.
  assert (H : (1 < 2)%nat) by apply le_n.
  split; [exact H|].
  exact (sweep_needs_two_stations geom_025 1 0.95 elliptic [2000; 4000]
           10 1.225 H).
Defined.

Lemma validated_inputs_are_valid_witness :
  validate_inputs 0.25 5000 10 = Returned tt /\
  valid_geometry {| diameter := 0.25; num_blades := 2;
                    hub_radius_ratio := 0.2 |} /\
  valid_flow {| velocity_inf := 10; rpm := 5000; rho := 1.225 |}.
Proof.
  assert (H : validate_inputs 0.25 5000 10 = Returned tt) by reflexivity.
  split; [exact H|].
  exact (validated_inputs_are_valid 0.25 5000 10 H).
Defined.

Lemma elliptic_is_preset : default_loading_coeffs "elliptic" = Returned elliptic.
Proof. reflexivity. Defined.

Lemma preset_loading_positive_witness :
  (default_loading_coeffs "elliptic" = Returned elliptic /\
   valid_geometry geom_025 /\ 0 < 0.95 /\ 0.95 <= 1) /\
  exists l,
    compute_loading_distribution (init geom_025 3 0.95) elliptic = Some l /\
    length l = 3%nat /\ Forall (fun v => 0 < v) l.
Proof.
  split; [split; [exact elliptic_is_preset|
                  split; [exact geom_025_valid|exact tip_loss_095]]|].
  exact (preset_loading_positive "elliptic" elliptic geom_025 3 0.95
           elliptic_is_preset geom_025_valid
           (proj1 tip_loss_095) (proj2 tip_loss_095)).
Defined.

Lemma preset_thrust_positive_witness :
  (default_loading_coeffs "elliptic" = Returned elliptic /\
   valid_geometry geom_025 /\ (0 < 0.95 /\ 0.95 <= 1) /\ (2 <= 2)%nat) /\
  exists p,
    compute_performance model_2 elliptic (flow_at 0 5000) = Some p /\
    0 < thrust p /\ 0 < torque p.
Proof.
  split; [split; [exact elliptic_is_preset|
                  split; [exact geom_025_valid|
                          split; [exact tip_loss_095|exact two_stations]]]|].
  exact (preset_thrust_positive "elliptic" elliptic geom_025 2 0.95
           (flow_at 0 5000) elliptic_is_preset geom_025_valid
           (proj1 tip_loss_095) (proj2 tip_loss_095) two_stations).
Defined.

Lemma preset_power_increases_with_rpm_witness :
  (default_loading_coeffs "elliptic" = Returned elliptic /\
   valid_geometry geom_025 /\ (0 < 0.95 /\ 0.95 <= 1) /\ (2 <= 2)%nat /\
   2000 < 4000) /\
  exists p1 p2,
    compute_performance model_2 elliptic (flow_at 10 2000) = Some p1 /\
    compute_performance model_2 elliptic (flow_at 10 4000) = Some p2 /\
    thrust p1 = thrust p2 /\ power p1 < power p2.
Proof.
  assert (Hr : 2000 < 4000) by reflexivity.
  split; [split; [exact elliptic_is_preset|
                  split; [exact geom_025_valid|
                          split; [exact tip_loss_095|
                                  split; [exact two_stations|exact Hr]]]]|].
  exact (preset_power_increases_with_rpm "elliptic" elliptic geom_025 2 0.95
           10 1.225 2000 4000 elliptic_is_preset geom_025_valid
           (proj1 tip_loss_095) (proj2 tip_loss_095) two_stations Hr).
Defined.

Lemma error_metrics_ranges_witness :
  (length [1; 2] = length [1; 3] /\ [1; 2] <> []) /\
  exists rmse mae r2,
    compute_error_metrics (fun x => x) [1; 2] [1; 3] = Some (rmse, mae, r2) /\
    0 <= mae /\ r2 <= 1.
Proof.
  assert (Hne : [1; 2] <> []) by discriminate.
  split; [split; [reflexivity|exact Hne]|].
  exact (error_metrics_ranges (fun x => x) [1; 2] [1; 3] eq_refl Hne).
Defined.

Lemma error_metrics_perfect_prediction_witness :
  [1; 2] <> [] /\
  exists m mae r2,
    compute_error_metrics (fun x => x) [1; 2] [1; 2] = Some (m, mae, r2) /\
    m == 0 /\ mae == 0 /\ r2 == 1.
Proof.
  assert (Hne : [1; 2] <> []) by discriminate.
  split; [exact Hne|].
  exact (error_metrics_perfect_prediction (fun x => x) [1; 2] Hne).
Defined.

Lemma min_power_recognized : recognized "min_power".
Proof. left. reflexivity. Defined.

Lemma history_stays_in_step_witness :
  recognized "min_power" /\
  history_in_step
    (snd (optimize_loading model_2 (flow_at 10 5000) "min_power" one_shot
            no_random (Some 15) None None 1 (0, 8) "SLSQP")).
Proof.
  split; [exact min_power_recognized|].
  exact (history_stays_in_step model_2 (flow_at 10 5000) "min_power"
           one_shot no_random (Some 15) None None 1%nat (0, 8) "SLSQP"
           min_power_recognized).
Defined.

Lemma model_2_evaluates (x : list Q) :
  compute_performance model_2 x (flow_at 10 5000) <> None.
Proof.
  destruct (performance_total geom_025 2 0.95 x (flow_at 10 5000)
              two_stations) as [p Hp].
  unfold model_2. rewrite Hp. discriminate.
Defined.

Lemma optimize_loading_returns_witness :
  (recognized "min_power" /\
   (forall x, compute_performance model_2 x (flow_at 10 5000) <> None) /\
   answers 1 (one_shot (no_random 1) "SLSQP"%string
                {| lb := [0]; ub := [8] |} 1%nat 200%nat)) /\
  exists r s,
    optimize_loading model_2 (flow_at 10 5000) "min_power" one_shot
      no_random (Some 15) None None 1 (0, 8) "SLSQP" = (Returned r, s) /\
    OptimizationResult.history r = history s.
Proof.
  assert (Ha : answers 1 (one_shot (no_random 1) "SLSQP"%string
                            {| lb := [0]; ub := [8] |} 1%nat 200%nat)).
  { unfold one_shot. constructor. intros v. constructor. }
  split; [split; [exact min_power_recognized|
                  split; [exact model_2_evaluates|exact Ha]]|].
  exact (optimize_loading_returns model_2 (flow_at 10 5000) "min_power"
           one_shot no_random (Some 15) None None 1%nat (0, 8) "SLSQP"
           min_power_recognized model_2_evaluates Ha).
Defined.
